(** * Flux-conserving reprojection by spherical polygon intersection

    A shallow embedding of [reproject/spherical_intersect/reproject.py]:
    the flag resolution, the coordinate mapper, the resampling loops, the
    column partitioning and the serial / parallel execution manager of
    [reproject_celestial], together with the properties its specification
    states about them. *)

From Stdlib Require Import ZArith QArith Qcanon Lia String Ascii SpecFloat.
From stdpp Require Import base tactics option list numbers.

Local Open Scope Z_scope.

(** ** Python values, exceptions and results *)

Module Py.

(** The exception classes the function raises, catches or lets through.
    [KeyboardInterrupt] and [SystemExit] derive from [BaseException] only;
    every other class here derives from [Exception]. *)
Inductive exn_class :=
| KeyboardInterrupt
| SystemExit
| TypeError
| ValueError
| NotImplementedError
| OverflowError
| OSError
| RuntimeError.

Record exn := Exn { exn_cls : exn_class; exn_msg : string }.

(** [isinstance(e, KeyboardInterrupt)], as tested by [except KeyboardInterrupt]. *)
Definition is_KeyboardInterrupt (e : exn) : bool :=
  match exn_cls e with KeyboardInterrupt => true | _ => false end.

(** [isinstance(e, Exception)], as tested by [except Exception]. *)
Definition is_Exception (e : exn) : bool :=
  match exn_cls e with
  | KeyboardInterrupt | SystemExit => false
  | _ => true
  end.

(** Outcome of a Python expression or call: a value or a raised exception. *)
Inductive result (A : Type) :=
| Ok (a : A)
| Raise (e : exn).
Arguments Ok {A} a.
Arguments Raise {A} e.

Definition rbind {A B} (m : result A) (f : A → result B) : result B :=
  match m with Ok a => f a | Raise e => Raise e end.

(** The values the [parallel] argument can hold, by exact type
    ([type(parallel)]): [bool] and [int] are distinct types. *)
Inductive pyval :=
| PyBool (b : bool)
| PyInt (n : Z)
| PyFloat (x : spec_float)
| PyStr (s : string)
| PyNone.

End Py.
Export Py.

#[global] Instance result_ret : MRet result := @Ok.
#[global] Instance result_bind : MBind result := λ A B f m, rbind m f.

(** [range(a, b)] *)
Definition py_range (a b : Z) : list Z := seqZ a (b - a).

(** ** Work partitions (parallel_impl, lines 196-198) *)

(** [start] and [end] of the [i]-th of [nproc] column ranges.
    [//] is floor division, which is [Z.div]. *)
Definition partition_start (nx_in nproc i : Z) : Z := nx_in / nproc * i.

Definition partition_end (nx_in nproc i : Z) : Z :=
  if decide (i = nproc - 1) then nx_in else nx_in / nproc * (i + 1).

(** The ranges in the order [for i in range(nproc)] produces them. *)
Definition partitions (nx_in nproc : Z) : list (Z * Z) :=
  (λ i, (partition_start nx_in nproc i, partition_end nx_in nproc i))
    <$> py_range 0 nproc.

(** What the specification asks of [nproc] column ranges over [nx_in]
    columns: they are the ranges the formulas give, they follow one another
    from 0 to [nx_in], every column lies in exactly one of them, and all
    but the last hold [nx_in // nproc] columns, the last one the rest. *)
Definition tiles_columns (nx_in nproc : Z) : Prop :=
  length (partitions nx_in nproc) = Z.to_nat nproc
  ∧ (∀ i : nat, Z.of_nat i < nproc →
       partitions nx_in nproc !! i =
         Some (nx_in / nproc * Z.of_nat i,
               if decide (Z.of_nat i = nproc - 1) then nx_in
               else nx_in / nproc * (Z.of_nat i + 1)))
  ∧ partition_start nx_in nproc 0 = 0
  ∧ partition_end nx_in nproc (nproc - 1) = nx_in
  ∧ (∀ i, 0 ≤ i < nproc - 1 →
       partition_end nx_in nproc i = partition_start nx_in nproc (i + 1))
  ∧ (∀ i, 0 ≤ i < nproc →
       0 ≤ partition_start nx_in nproc i ≤ partition_end nx_in nproc i
       ∧ partition_end nx_in nproc i ≤ nx_in)
  ∧ (∀ c, 0 ≤ c < nx_in →
       ∃ i, 0 ≤ i < nproc
            ∧ partition_start nx_in nproc i ≤ c < partition_end nx_in nproc i)
  ∧ (∀ i j c, 0 ≤ i < nproc → 0 ≤ j < nproc →
       partition_start nx_in nproc i ≤ c < partition_end nx_in nproc i →
       partition_start nx_in nproc j ≤ c < partition_end nx_in nproc j →
       i = j)
  ∧ (∀ i, 0 ≤ i < nproc - 1 →
       partition_end nx_in nproc i - partition_start nx_in nproc i = nx_in / nproc)
  ∧ partition_end nx_in nproc (nproc - 1) - partition_start nx_in nproc (nproc - 1)
    = nx_in / nproc + nx_in `mod` nproc.

(** ** The [parallel] flag (reproject_celestial, lines 56-67) *)

(** Result: [Some n] for a fixed process count, [None] for "chosen
    automatically when the pool is created". *)
Definition check_parallel_flag (parallel : pyval) : result (option Z) :=
  match parallel with
  | PyBool b => Ok (if b then None else Some 1)
  | PyInt n =>
      if decide (n ≤ 0)
      then Raise (Exn ValueError "The number of processors to use must be strictly positive")
      else Ok (Some n)
  | _ => Raise (Exn TypeError "The 'parallel' flag must be a boolean or integral value")
  end.

(** ** Scalars

    Every array of the program holds IEEE binary64 numbers.  The loops are
    written once, over the operations they use, so that the same text can
    be read over binary64 (what the program computes) and over the
    rationals (where sums are exact). *)

Class Scalar (F : Type) := {
  f0 : F;                      (* 0.0 *)
  fhalf : F;                   (* 0.5 *)
  of_int : Z → F;              (* float(k) *)
  fadd : F → F → F;
  fsub : F → F → F;
  fmul : F → F → F;
  fdiv : F → F → F;            (* true division of numpy scalars: never raises *)
  fltb : F → F → bool;         (* x < y *)
  to_radians : F → F;          (* np.radians *)
  py_int : F → result Z;       (* int(x): truncation toward zero *)
  py_floor : F → result Z;     (* floor(x) *)
}.

(** Exact summation: addition is associative and commutative and 0.0 is
    neutral.  binary64 addition is commutative but not associative. *)
Class ExactSum (F : Type) `{Scalar F} : Prop := {
  fadd_assoc : ∀ x y z : F, fadd x (fadd y z) = fadd (fadd x y) z;
  fadd_comm : ∀ x y : F, fadd x y = fadd y x;
  fadd_0_l : ∀ x : F, fadd f0 x = x;
}.

(** *** binary64, on the Standard Library's [spec_float] *)

Module B64.

Definition prec : Z := 53.
Definition emax : Z := 1024.

Definition zero : spec_float := S754_zero false.
Definition half : spec_float := S754_finite false 4503599627370496 (-53).
Definition one : spec_float := S754_finite false 4503599627370496 (-52).
Definition nan : spec_float := S754_nan.

(** The double nearest to pi/180, the factor [np.radians] multiplies by. *)
Definition deg : spec_float := S754_finite false 5030569068109113 (-58).

Definition of_Z (k : Z) : spec_float := binary_normalize prec emax k 0 false.
Definition add := SFadd prec emax.
Definition sub := SFsub prec emax.
Definition mul := SFmul prec emax.
Definition div := SFdiv prec emax.
Definition ltb := SFltb.
Definition eqb := SFeqb.

Definition is_finite (x : spec_float) : bool :=
  match x with
  | S754_zero _ | S754_finite _ _ _ => true
  | S754_infinity _ | S754_nan => false
  end.

(** [int(x)].  The value of a finite float is [(-1)^s * m * 2^e]:
    shifting the magnitude drops the fraction, whatever the sign. *)
Definition to_int (x : spec_float) : result Z :=
  match x with
  | S754_zero _ => Ok 0
  | S754_finite s m e => Ok (cond_Zopp s (Z.shiftl (Z.pos m) e))
  | S754_infinity _ => Raise (Exn OverflowError "cannot convert float infinity to integer")
  | S754_nan => Raise (Exn ValueError "cannot convert float NaN to integer")
  end.

(** [floor(x)]: shifting the signed mantissa rounds down. *)
Definition floor (x : spec_float) : result Z :=
  match x with
  | S754_zero _ => Ok 0
  | S754_finite s m e => Ok (Z.shiftl (cond_Zopp s (Z.pos m)) e)
  | S754_infinity _ => Raise (Exn OverflowError "cannot convert float infinity to integer")
  | S754_nan => Raise (Exn ValueError "cannot convert float NaN to integer")
  end.

End B64.

#[global] Instance binary64 : Scalar spec_float := {|
  f0 := B64.zero;
  fhalf := B64.half;
  of_int := B64.of_Z;
  fadd := B64.add;
  fsub := B64.sub;
  fmul := B64.mul;
  fdiv := B64.div;
  fltb := B64.ltb;
  to_radians := λ x, B64.mul x B64.deg;
  py_int := B64.to_int;
  py_floor := B64.floor;
|}.

(** *** Exact rationals *)

Module Rat.

(** The rational value of [B64.deg]. *)
Definition deg : Qc := Q2Qc (Qmake 5030569068109113 288230376151711744).

Definition to_int (x : Qc) : Z := Z.quot (Qnum x) (Z.pos (Qden x)).
Definition floor (x : Qc) : Z := Qnum x / Z.pos (Qden x).

End Rat.

#[global] Instance rational : Scalar Qc := {|
  f0 := 0%Qc;
  fhalf := Q2Qc (Qmake 1 2);
  of_int := λ k, Q2Qc (inject_Z k);
  fadd := Qcplus;
  fsub := Qcminus;
  fmul := Qcmult;
  fdiv := Qcdiv;
  fltb := λ x y, bool_decide (x < y)%Qc;
  to_radians := λ x, Qcmult x Rat.deg;
  py_int := λ x, Ok (Rat.to_int x);
  py_floor := λ x, Ok (Rat.floor x);
|}.

#[global] Instance rational_exact : ExactSum Qc := {|
  fadd_assoc := Qcplus_assoc;
  fadd_comm := Qcplus_comm;
  fadd_0_l := Qcplus_0_l;
|}.

(** ** Arrays *)

(** A 2-D array, stored by rows: [g[j, i]] is entry [i] of row [j]. *)
Abbreviation grid F := (list (list F)).

Section Arrays.
Context `{Scalar F}.

(** [array.shape] of a 2-D array, as [(rows, columns)]; the number of
    columns is read off the first row. *)
Definition shape_of (g : grid F) : nat * nat :=
  (length g, from_option length 0%nat (head g)).

(** [g[j, i]].  The loops below only read at indices inside the array
    (never negative, never past the end); outside, the model reads 0.0. *)
Definition at2 (g : grid F) (j i : Z) : F :=
  if decide (0 ≤ j ∧ 0 ≤ i)
  then default f0 (row ← g !! Z.to_nat j; row !! Z.to_nat i)
  else f0.

(** The entry of row [j] and column [i], when the array has one. *)
Definition cell (g : grid F) (j i : nat) : option F :=
  row ← g !! j; row !! i.

(** The array has [rows] rows of [cols] entries each. *)
Definition has_shape (g : grid F) (rows cols : nat) : Prop :=
  length g = rows ∧ Forall (λ row, length row = cols) g.

(** [g[jj, ii] += v].  The loops only write at indices inside the array
    (the boxes are clipped to it first); outside, the model writes
    nothing. *)
Definition add_at (g : grid F) (jj ii : Z) (v : F) : grid F :=
  if decide (0 ≤ jj ∧ 0 ≤ ii)
  then alter (alter (λ x, fadd x v) (Z.to_nat ii)) (Z.to_nat jj) g
  else g.

(** [np.zeros(shape)] *)
Definition zeros (shape : nat * nat) : grid F :=
  replicate shape.1 (replicate shape.2 f0).

(** Elementwise [a + b] and [a / b] of arrays of one shape. *)
Definition grid_add (a b : grid F) : grid F := zip_with (zip_with fadd) a b.
Definition grid_div (a b : grid F) : grid F := zip_with (zip_with fdiv) a b.

(** [sum(arrays)]: Python's [sum] starts from the integer 0, which
    broadcasts over the first array. *)
Definition py_sum (arrays : list (grid F)) : grid F :=
  match arrays with
  | [] => []
  | a :: rest => foldl grid_add (fmap (M:=list) (fadd f0) <$> a) rest
  end.

(** [np.arange(n)] and [np.arange(n + 1.) - 0.5] *)
Definition arange (n : Z) : list F := of_int <$> seqZ 0 n.
Definition corner_axis (n : nat) : list F :=
  (λ v, fsub v fhalf) <$> arange (Z.of_nat n + 1).

(** [np.meshgrid(x, y)] *)
Definition meshgrid (x y : list F) : grid F * grid F :=
  (replicate (length y) x, (λ v, replicate (length x) v) <$> y).

(** A coordinate transform applied to every element of a pair of arrays. *)
Definition vectorized (f : F → F → F * F) (xs ys : grid F) : grid F * grid F :=
  (zip_with (zip_with (λ a b, (f a b).1)) xs ys,
   zip_with (zip_with (λ a b, (f a b).2)) xs ys).

(** Builtin [min] and [max] of four arguments: the first argument is
    kept unless a later one compares strictly smaller (larger). *)
Definition py_min (best x : F) : F := if fltb x best then x else best.
Definition py_max (best x : F) : F := if fltb best x then x else best.
Definition py_min4 (a b c d : F) : F := py_min (py_min (py_min a b) c) d.
Definition py_max4 (a b c d : F) : F := py_max (py_max (py_max a b) c) d.

End Arrays.

(** Loop with an accumulator whose body may raise. *)
Fixpoint for_each {A S} (body : S → A → result S) (l : list A) (s : S) : result S :=
  match l with
  | [] => Ok s
  | x :: l => s' ← body s x; for_each body l s'
  end.

(** ** External collaborators *)

(** A projection ([astropy.wcs.WCS]): its number of axes and its two
    transforms, taken at origin 0 and applied to one coordinate pair. *)
Record wcs (F : Type) := WCS {
  naxis : Z;
  wcs_pix2world : F → F → F * F;
  wcs_world2pix : F → F → F * F;
}.
Arguments WCS {F} _ _ _.
Arguments naxis {F} _.
Arguments wcs_pix2world {F} _ _ _.
Arguments wcs_world2pix {F} _ _ _.

(** ** The resampling loops (lines 116-155) *)

(** The values both resampling entry points work from, in the order of
    [common_func_par] (line 166): the row range, the output size, the
    corner arrays, the image and the output shape. *)
Record common_par (F : Type) := CommonPar {
  starty : Z;
  endy : Z;
  nx_out : Z;
  ny_out : Z;
  xp_inout : grid F;
  yp_inout : grid F;
  xw_in : grid F;
  yw_in : grid F;
  xw_out : grid F;
  yw_out : grid F;
  array : grid F;
  shape_out : nat * nat;
}.
Arguments CommonPar {F} _ _ _ _ _ _ _ _ _ _ _ _.
Arguments starty {F} _.
Arguments endy {F} _.
Arguments nx_out {F} _.
Arguments ny_out {F} _.
Arguments xp_inout {F} _.
Arguments yp_inout {F} _.
Arguments xw_in {F} _.
Arguments yw_in {F} _.
Arguments xw_out {F} _.
Arguments yw_out {F} _.
Arguments array {F} _.
Arguments shape_out {F} _.

Section Loops.
Context `{Scalar F}.

(** [_compute_overlap(ilon, ilat, olon, olat)[0]]: the area shared by two
    spherical quadrilaterals given by four vertices in radians. *)
Variable compute_overlap : list F → list F → list F → list F → F.

(** How a shifted coordinate becomes an index: [int] in the loops of
    [reproject_celestial], the floor in the specification. *)
Variable to_index : F → result Z.

Variable par : common_par F.

(** The four corners of pixel [(j, i)] of a corner array, reversed,
    in radians (lines 131-134 and 144-147). *)
Definition quad (g : grid F) (j i : Z) : list F :=
  to_radians <$> reverse [at2 g j i; at2 g j (i + 1); at2 g (j + 1) (i + 1); at2 g (j + 1) i].

(** The smallest and largest of the four corners of pixel [(j, i)] of a
    corner array. *)
Definition corner_min (g : grid F) (j i : Z) : F :=
  py_min4 (at2 g j i) (at2 g j (i + 1)) (at2 g (j + 1) (i + 1)) (at2 g (j + 1) i).
Definition corner_max (g : grid F) (j i : Z) : F :=
  py_max4 (at2 g j i) (at2 g j (i + 1)) (at2 g (j + 1) (i + 1)) (at2 g (j + 1) i).

(** Lines 126-129: the index box of input pixel [(j, i)] in the output
    image, as [(xmin, xmax, ymin, ymax)]. *)
Definition index_box (j i : Z) : result (Z * Z * Z * Z) :=
  xmin ← to_index (fadd (corner_min (xp_inout par) j i) fhalf);
  xmax ← to_index (fadd (corner_max (xp_inout par) j i) fhalf);
  ymin ← to_index (fadd (corner_min (yp_inout par) j i) fhalf);
  ymax ← to_index (fadd (corner_max (yp_inout par) j i) fhalf);
  mret (xmin, xmax, ymin, ymax).

(** Lines 136-139: the box clipped to the output image. *)
Definition clip_box (box : Z * Z * Z * Z) : Z * Z * Z * Z :=
  let '(xmin, xmax, ymin, ymax) := box in
  (Z.max 0 xmin, Z.min (nx_out par - 1) xmax, Z.max 0 ymin, Z.min (ny_out par - 1) ymax).

(** Lines 144-155: the body of the innermost loop, for input pixel
    [(j, i)] and output pixel [(jj, ii)], on the pair
    [(array_new, weights)]. *)
Definition accumulate (j i jj ii : Z) (acc : grid F * grid F) : grid F * grid F :=
  let ilon := quad (xw_in par) j i in
  let ilat := quad (yw_in par) j i in
  let olon := quad (xw_out par) jj ii in
  let olat := quad (yw_out par) jj ii in
  let overlap := compute_overlap ilon ilat olon olat in
  let original := compute_overlap olon olat olon olat in
  (add_at acc.1 jj ii (fdiv (fmul (at2 (array par) j i) overlap) original),
   add_at acc.2 jj ii (fdiv overlap original)).

(** Lines 141-142: the output pixels of a clipped box, in loop order. *)
Definition box_pixels (box : Z * Z * Z * Z) : list (Z * Z) :=
  let '(xmin, xmax, ymin, ymax) := box in
  ii ← py_range xmin (xmax + 1);
  jj ← py_range ymin (ymax + 1);
  [(jj, ii)].

(** Lines 126-155: everything done for one input pixel. *)
Definition resample_pixel (acc : grid F * grid F) (j i : Z) : result (grid F * grid F) :=
  box ← index_box j i;
  mret (foldl (λ acc p, accumulate j i p.1 p.2 acc) acc (box_pixels (clip_box box))).

(** Lines 119-155: the two outer loops over a column range. *)
Definition resample_columns (startx endx : Z) (acc : grid F * grid F)
    : result (grid F * grid F) :=
  for_each (λ acc i,
    for_each (λ acc j, resample_pixel acc j i) (py_range (starty par) (endy par)) acc)
    (py_range startx endx) acc.

(** Lines 116-117 followed by the loops. *)
Definition resample_slice (startx endx : Z) : result (grid F * grid F) :=
  resample_columns startx endx (zeros (shape_out par), zeros (shape_out par)).

End Loops.

(** ** What the loops add up

    The loops seen as the list of the updates they perform, and each
    update as the two terms it adds.  These definitions are not part of
    the program: the properties below relate the loops to them. *)

(** One execution of the innermost loop body: input pixel [(j, i)],
    output pixel [(jj, ii)]. *)
Record update := Update { u_j : Z; u_i : Z; u_jj : Z; u_ii : Z }.

Section Updates.
Context `{Scalar F}.
Variable compute_overlap : list F → list F → list F → list F → F.
Variable to_index : F → result Z.
Variable par : common_par F.

(** [overlap / original] for an input and an output pixel. *)
Definition fraction (j i jj ii : Z) : F :=
  let olon := quad (xw_out par) jj ii in
  let olat := quad (yw_out par) jj ii in
  fdiv (compute_overlap (quad (xw_in par) j i) (quad (yw_in par) j i) olon olat)
       (compute_overlap olon olat olon olat).

(** [array[j, i] * overlap / original] *)
Definition flux_term (j i jj ii : Z) : F :=
  let olon := quad (xw_out par) jj ii in
  let olat := quad (yw_out par) jj ii in
  fdiv (fmul (at2 (array par) j i)
             (compute_overlap (quad (xw_in par) j i) (quad (yw_in par) j i) olon olat))
       (compute_overlap olon olat olon olat).

Definition apply_update (acc : grid F * grid F) (u : update) : grid F * grid F :=
  accumulate compute_overlap par (u_j u) (u_i u) (u_jj u) (u_ii u) acc.

(** The updates for one input pixel, one column and a column range, in
    the order of the loops. *)
Definition pixel_updates (j i : Z) : result (list update) :=
  box ← index_box to_index par j i;
  mret ((λ p, Update j i p.1 p.2) <$> box_pixels (clip_box par box)).

Fixpoint rows_updates (rows : list Z) (i : Z) : result (list update) :=
  match rows with
  | [] => Ok []
  | j :: rows => us ← pixel_updates j i; rest ← rows_updates rows i; mret (us ++ rest)
  end.

Fixpoint columns_updates (cols : list Z) : result (list update) :=
  match cols with
  | [] => Ok []
  | i :: cols =>
      us ← rows_updates (py_range (starty par) (endy par)) i;
      rest ← columns_updates cols;
      mret (us ++ rest)
  end.

Definition slice_updates (startx endx : Z) : result (list update) :=
  columns_updates (py_range startx endx).

(** The updates that go to output pixel [(jj, ii)]. *)
Definition aimed_at (jj ii : nat) (us : list update) : list update :=
  filter (λ u, u_jj u = Z.of_nat jj ∧ u_ii u = Z.of_nat ii) us.

(** Left-to-right sum of a list of terms, from 0.0. *)
Definition sum_terms (terms : list F) : F := foldl fadd f0 terms.

End Updates.

(** What a run of the loops over the columns [0 .. nx_in - 1] leaves in
    [(flux, weights)]: the loops perform the updates [us]; an update is in
    [us] exactly for an input pixel of the range and an output pixel of
    its clipped box; both arrays keep the output shape; and every output
    pixel holds the sums, in loop order, of the terms of the updates aimed
    at it. *)
Definition accumulates_fractions `{Scalar F}
    (compute_overlap : list F → list F → list F → list F → F)
    (to_index : F → result Z) (par : common_par F) (nx_in : Z)
    (flux weights : grid F) : Prop :=
  ∃ us,
    slice_updates to_index par 0 nx_in = Ok us
    ∧ (∀ u, u ∈ us ↔
         0 ≤ u_i u < nx_in ∧ starty par ≤ u_j u < endy par
         ∧ ∃ box, index_box to_index par (u_j u) (u_i u) = Ok box
                  ∧ (u_jj u, u_ii u) ∈ box_pixels (clip_box par box))
    ∧ (flux, weights)
      = foldl (apply_update compute_overlap par)
          (zeros (shape_out par), zeros (shape_out par)) us
    ∧ has_shape flux (shape_out par).1 (shape_out par).2
    ∧ has_shape weights (shape_out par).1 (shape_out par).2
    ∧ (∀ j i : nat, (j < (shape_out par).1)%nat → (i < (shape_out par).2)%nat →
         cell flux j i
           = Some (sum_terms
                     ((λ u, flux_term compute_overlap par (u_j u) (u_i u) (u_jj u) (u_ii u))
                        <$> aimed_at j i us))
         ∧ cell weights j i
           = Some (sum_terms
                     ((λ u, fraction compute_overlap par (u_j u) (u_i u) (u_jj u) (u_ii u))
                        <$> aimed_at j i us))).

(** The division that ends every branch, entry by entry, in binary64: the
    quotient is not finite wherever the weight is zero. *)
Definition normalised (flux weights : grid spec_float) (shape : nat * nat) : Prop :=
  ∀ j i : nat, (j < shape.1)%nat → (i < shape.2)%nat →
    ∃ f w, cell flux j i = Some f ∧ cell weights j i = Some w
           ∧ cell (grid_div flux weights) j i = Some (B64.div f w)
           ∧ (B64.eqb w B64.zero = true → B64.is_finite (B64.div f w) = false).

(** The index box of input pixel [(j, i)] as the loops compute it in
    binary64, [a], [b], [c], [d] being the four values [int] returns: the
    box is clipped to the output image, the output pixels visited are
    those of the clipped box, all of them inside the image, and an empty
    clipped box leaves the accumulators as they were.  [int] agrees with
    the floor on values that are not negative, and is the floor or one
    more than the floor on the others. *)
Definition box_rule
    (compute_overlap : list spec_float → list spec_float → list spec_float
                       → list spec_float → spec_float)
    (par : common_par spec_float) (j i : Z) (acc : grid spec_float * grid spec_float)
    (a b c d : Z) : Prop :=
  let xmin := Z.max 0 a in
  let xmax := Z.min (nx_out par - 1) b in
  let ymin := Z.max 0 c in
  let ymax := Z.min (ny_out par - 1) d in
  index_box py_int par j i = Ok (a, b, c, d)
  ∧ clip_box par (a, b, c, d) = (xmin, xmax, ymin, ymax)
  ∧ resample_pixel compute_overlap py_int par acc j i
    = Ok (foldl (λ acc p, accumulate compute_overlap par j i p.1 p.2 acc) acc
            (box_pixels (xmin, xmax, ymin, ymax)))
  ∧ (∀ jj ii, (jj, ii) ∈ box_pixels (xmin, xmax, ymin, ymax)
              ↔ xmin ≤ ii ≤ xmax ∧ ymin ≤ jj ≤ ymax)
  ∧ (∀ jj ii, (jj, ii) ∈ box_pixels (xmin, xmax, ymin, ymax) →
              0 ≤ ii ≤ nx_out par - 1 ∧ 0 ≤ jj ≤ ny_out par - 1)
  ∧ (xmax < xmin ∨ ymax < ymin →
       resample_pixel compute_overlap py_int par acc j i = Ok acc)
  ∧ (∀ x, B64.ltb x B64.zero = false → B64.floor x = B64.to_int x)
  ∧ (∀ x z, B64.to_int x = Ok z → B64.floor x = Ok z ∨ B64.floor x = Ok (z - 1)).

(** Modelled from the spec: the function [_reproject_slice_cython] of the
    module [_overlap], whose source is not among the files at hand.
    Section 4.2: for a half-open column range it returns the accumulator
    pair holding the contribution of the input pixels of those columns
    and of all rows, the index box being the floor of the shifted corner
    extremes. *)
Definition reproject_slice_spec `{Scalar F}
    (compute_overlap : list F → list F → list F → list F → F)
    (startx endx : Z) (par : common_par F) : result (grid F * grid F) :=
  resample_slice compute_overlap py_floor par startx endx.

(** The loops of the ["legacy"] branch (lines 116-155), which run over
    all columns and convert with [int]. *)
Definition legacy_loops `{Scalar F}
    (compute_overlap : list F → list F → list F → list F → F)
    (nx_in : Z) (par : common_par F) : result (grid F * grid F) :=
  resample_slice compute_overlap py_int par 0 nx_in.

(** ** The coordinate mapper (lines 83-111) *)

(** Every array the mapper computes.  [xw_in0], [yw_in0] are the world
    positions of the input corners before the conversion of line 106
    rebinds [xw_in], [yw_in]. *)
Record corner_maps (F : Type) := CornerMaps {
  cm_xp_in : grid F;
  cm_yp_in : grid F;
  cm_xw_in0 : grid F;
  cm_yw_in0 : grid F;
  cm_xp_out : grid F;
  cm_yp_out : grid F;
  cm_xw_out : grid F;
  cm_yw_out : grid F;
  cm_xw_in : grid F;
  cm_yw_in : grid F;
  cm_xp_inout : grid F;
  cm_yp_inout : grid F;
}.
Arguments CornerMaps {F} _ _ _ _ _ _ _ _ _ _ _ _.
Arguments cm_xp_in {F} _.
Arguments cm_yp_in {F} _.
Arguments cm_xw_in0 {F} _.
Arguments cm_yw_in0 {F} _.
Arguments cm_xp_out {F} _.
Arguments cm_yp_out {F} _.
Arguments cm_xw_out {F} _.
Arguments cm_yw_out {F} _.
Arguments cm_xw_in {F} _.
Arguments cm_yw_in {F} _.
Arguments cm_xp_inout {F} _.
Arguments cm_yp_inout {F} _.

Section Mapper.
Context `{Scalar F}.

(** [convert_world_coordinates(xw, yw, wcs_in, wcs_out)] of [wcs_utils],
    on one coordinate pair. *)
Variable convert_world_coordinates : wcs F → wcs F → F → F → F * F.

(** Lines 85-88 and 96-99: the corner positions of an image of the given
    shape, in its own pixel space. *)
Definition corner_grid (shape : nat * nat) : grid F * grid F :=
  let '(ny, nx) := shape in
  let x := corner_axis nx in
  let y := corner_axis ny in
  meshgrid x y.

Definition coordinate_mapper (shape_in shape_out : nat * nat) (wcs_in wcs_out : wcs F)
    : corner_maps F :=
  let '(xp_in, yp_in) := corner_grid shape_in in
  let '(xw_in0, yw_in0) := vectorized (wcs_pix2world wcs_in) xp_in yp_in in
  let '(xp_out, yp_out) := corner_grid shape_out in
  let '(xw_out, yw_out) := vectorized (wcs_pix2world wcs_out) xp_out yp_out in
  let '(xw_in, yw_in) :=
    vectorized (convert_world_coordinates wcs_in wcs_out) xw_in0 yw_in0 in
  let '(xp_inout, yp_inout) := vectorized (wcs_world2pix wcs_out) xw_in yw_in in
  CornerMaps xp_in yp_in xw_in0 yw_in0 xp_out yp_out xw_out yw_out
             xw_in yw_in xp_inout yp_inout.

End Mapper.

(** ** The execution manager *)

(** What the function does that can be observed from outside its return
    value, in the order it happens. *)
Inductive event :=
| EvAstypeFloat                      (* array.astype(float), line 71 *)
| EvCornerGrid (input : bool)        (* arange / meshgrid, input or output image *)
| EvPix2World (input : bool)         (* wcs_pix2world, input or output projection *)
| EvConvertFrame                     (* convert_world_coordinates *)
| EvWorld2Pix                        (* wcs_out.wcs_world2pix *)
| EvLegacyLoops                      (* the loops of the "legacy" branch *)
| EvSlice (startx endx : Z)          (* _reproject_slice_cython run in this process *)
| EvPoolCreate (nproc : Z)           (* Pool(nproc, _init_worker) *)
| EvApplyAsync (startx endx : Z)     (* pool.apply_async *)
| EvGet (k : nat)                    (* the k-th AsyncResult.get() was not interrupted *)
| EvPoolTerminate
| EvPoolClose
| EvPoolJoin
| EvWarnParallelFailed (e : exn)     (* logger.warn, line 231 *)
| EvWarnRunningSerial.               (* logger.warn, line 232 *)

(** What the surroundings do during one call: the number of CPUs, and
    which of the calls into [multiprocessing] raise, each by its place in
    [parallel_impl].  A raise at a call is a failure of that call or a
    signal delivered while it runs; a call that raises is not logged.  At
    [get], the worker's own failure is the result of the slice function,
    and the fault is what else ends the wait.  A [Pool(...)] that raises
    leaves no pool behind. *)
Record env := Env {
  cpu_count : result Z;
  pool_fault : option exn;            (* Pool(nproc, _init_worker), line 191 *)
  apply_fault : nat → option exn;     (* the i-th pool.apply_async, line 199 *)
  get_fault : nat → option exn;       (* the k-th _.get(), lines 201-202 *)
  terminate_fault : option exn;       (* pool.terminate(), line 210 *)
  abort_join_fault : option exn;      (* pool.join(), line 211 *)
  close_fault : option exn;           (* pool.close(), line 218 *)
  join_fault : option exn;            (* pool.join(), line 219 *)
}.

(** The trace so far and the local variable [pool] of [parallel_impl]
    ([true] when it holds a pool, [false] when it is [None]). *)
Record state := State {
  trace : list event;
  pool : bool;
}.

(** Computations that log events, read and write [pool], and may raise. *)
Definition M (A : Type) : Type := state → state * result A.

#[global] Instance M_ret : MRet M := λ A a s, (s, Ok a).
#[global] Instance M_bind : MBind M := λ A B f m s,
  match m s with
  | (s', Ok a) => f a s'
  | (s', Raise e) => (s', Raise e)
  end.

Definition raise {A} (e : exn) : M A := λ s, (s, Raise e).
Definition lift {A} (r : result A) : M A := λ s, (s, r).
Definition emit (ev : event) : M unit :=
  λ s, (State (trace s ++ [ev]) (pool s), Ok ()).
Definition get_pool : M bool := λ s, (s, Ok (pool s)).
Definition set_pool (p : bool) : M unit := λ s, (State (trace s) p, Ok ()).

(** [try: body / except ... as e: handler e] *)
Definition try_except {A} (body : M A) (handler : exn → M A) : M A := λ s,
  match body s with
  | (s', Raise e) => handler e s'
  | r => r
  end.

(** [try: body / finally: final] *)
Definition try_finally {A} (body : M A) (final : M unit) : M A := λ s,
  let '(s1, r) := body s in
  match final s1 with
  | (s2, Ok _) => (s2, r)
  | (s2, Raise e) => (s2, Raise e)
  end.

(** A call into the surroundings: it raises if they say so, and is
    logged otherwise. *)
Definition call (fault : option exn) (ev : event) : M unit :=
  match fault with
  | Some e => raise e
  | None => emit ev
  end.

(** The text of line 235, [dq] being the double quote character. *)
Definition dq : string := String (ascii_of_nat 34) EmptyString.
Definition unrecognized_method (_method : string) : exn :=
  Exn ValueError ("unrecognized method " ++ dq ++ _method ++ dq).

Section Manager.
Context `{Scalar F}.
Variable compute_overlap : list F → list F → list F → list F → F.
Variable convert_world_coordinates : wcs F → wcs F → F → F → F * F.

(** [_reproject_slice_cython(startx, endx, *common_func_par)], imported
    from [_overlap] on line 165.  Its source is not among the files at
    hand: the manager is read for any function of this type. *)
Variable _reproject_slice_cython : Z → Z → common_par F → result (grid F * grid F).

Variable world : env.

Section Request.

(** The variables of [reproject_celestial] the two nested functions
    close over. *)
Variable nx_in : Z.
Variable common_func_par : common_par F.

(** Lines 169-174. *)
Definition serial_impl : M (grid F * grid F) :=
  emit (EvSlice 0 nx_in);;
  '(array_new, weights) ← lift (_reproject_slice_cython 0 nx_in common_func_par);
  mret (grid_div array_new weights, weights).

(** Line 191.  [Pool] rejects a process count below one. *)
Definition create_pool (nproc : Z) : M unit :=
  (if decide (nproc < 1)
   then raise (Exn ValueError "Number of processes must be at least 1")
   else call (pool_fault world) (EvPoolCreate nproc));;
  set_pool true.

(** Lines 196-199: one task per column range, in order. *)
Fixpoint apply_each (ranges : list (Z * Z)) (i : nat) : M (list (Z * Z)) :=
  match ranges with
  | [] => mret []
  | (startx, endx) :: rest =>
      call (apply_fault world i) (EvApplyAsync startx endx);;
      results ← apply_each rest (S i);
      mret ((startx, endx) :: results)
  end.

(** [_.get()] on the result of the task for one column range; [k]
    counts the calls to [get]. *)
Definition get (k : nat) (task : Z * Z) : M (grid F * grid F) :=
  call (get_fault world k) (EvGet k);;
  lift (_reproject_slice_cython task.1 task.2 common_func_par).

(** [[_.get()[n] for _ in results]] *)
Fixpoint get_each (proj : grid F * grid F → grid F) (results : list (Z * Z)) (k : nat)
    : M (list (grid F)) :=
  match results with
  | [] => mret []
  | task :: rest =>
      r ← get k task;
      rs ← get_each proj rest (S k);
      mret (proj r :: rs)
  end.

(** Lines 191-202: the body of the [try] statement. *)
Definition parallel_body (nproc : Z) : M (grid F * grid F) :=
  create_pool nproc;;
  results ← apply_each (partitions nx_in nproc) 0;
  arrays ← get_each fst results 0;
  weights ← get_each snd results (length results);
  mret (py_sum arrays, py_sum weights).

(** Lines 204-213: the [except KeyboardInterrupt] clause. *)
Definition on_interrupt (e : exn) : M (grid F * grid F) :=
  get_pool ≫= λ p : bool,
    (if p then
       call (terminate_fault world) EvPoolTerminate;;
       call (abort_join_fault world) EvPoolJoin;;
       set_pool false
     else mret ());;
    raise e.

(** Lines 215-219: the [finally] clause. *)
Definition release_pool : M unit :=
  get_pool ≫= λ p : bool,
    if p then
      call (close_fault world) EvPoolClose;;
      call (join_fault world) EvPoolJoin
    else mret ().

(** Lines 180-221. *)
Definition parallel_impl (nproc : option Z) : M (grid F * grid F) :=
  nproc ← match nproc with
           | None => lift (cpu_count world)
           | Some n => mret n
           end;
  set_pool false;;
  '(array_new, weights) ←
    try_finally
      (try_except (parallel_body nproc)
         (λ e, if is_KeyboardInterrupt e then on_interrupt e else raise e))
      release_pool;
  mret (grid_div array_new weights, weights).

(** Lines 224-233: the parallel attempt and its two handlers. *)
Definition parallel_or_fallback (nproc : option Z) : M (grid F * grid F) :=
  try_except (parallel_impl nproc)
    (λ e, if is_KeyboardInterrupt e then raise e
          else if is_Exception e then
            emit (EvWarnParallelFailed e);;
            emit EvWarnRunningSerial;;
            serial_impl
          else raise e).

End Request.

(** The events of lines 83-111, in order. *)
Definition mapping_events : list event :=
  [EvCornerGrid true; EvPix2World true; EvCornerGrid false; EvPix2World false;
   EvConvertFrame; EvWorld2Pix].

(** Lines 83-111, with the calls logged. *)
Definition mapping (shape_in shape_out : nat * nat) (wcs_in wcs_out : wcs F)
    : M (corner_maps F) :=
  emit (EvCornerGrid true);;
  emit (EvPix2World true);;
  emit (EvCornerGrid false);;
  emit (EvPix2World false);;
  emit EvConvertFrame;;
  emit EvWorld2Pix;;
  mret (coordinate_mapper convert_world_coordinates shape_in shape_out wcs_in wcs_out).

(** Line 166: [common_func_par], from the variables in scope there. *)
Definition make_common_func_par (array : grid F) (wcs_in wcs_out : wcs F)
    (shape_out : nat * nat) : common_par F :=
  let cm := coordinate_mapper convert_world_coordinates (shape_of array) shape_out
              wcs_in wcs_out in
  CommonPar 0 (Z.of_nat (shape_of array).1)
            (Z.of_nat shape_out.2) (Z.of_nat shape_out.1)
            (cm_xp_inout cm) (cm_yp_inout cm) (cm_xw_in cm) (cm_yw_in cm)
            (cm_xw_out cm) (cm_yw_out cm) array shape_out.

(** Is [nproc is None or nproc > 1] *)
Definition wants_pool (nproc : option Z) : bool :=
  match nproc with
  | None => true
  | Some n => bool_decide (1 < n)
  end.

(** [reproject_celestial(array, wcs_in, wcs_out, shape_out, parallel, _method)] *)
Definition reproject_celestial (array : grid F) (wcs_in wcs_out : wcs F)
    (shape_out : nat * nat) (parallel : pyval) (_method : string)
    : M (grid F * grid F) :=
  nproc ← lift (check_parallel_flag parallel);
  emit EvAstypeFloat;;
  if decide (naxis wcs_in ≠ 2)
  then raise (Exn NotImplementedError
                "Only 2-dimensional arrays can be reprojected at this time")
  else
    let nx_in := Z.of_nat (shape_of array).2 in
    _ ← mapping (shape_of array) shape_out wcs_in wcs_out;
    let common_func_par := make_common_func_par array wcs_in wcs_out shape_out in
    if String.eqb _method "legacy" then
      emit EvLegacyLoops;;
      '(array_new, weights) ← lift (legacy_loops compute_overlap nx_in common_func_par);
      mret (grid_div array_new weights, weights)
    else if String.eqb _method "c" && bool_decide (nproc = Some 1) then
      serial_impl nx_in common_func_par
    else if String.eqb _method "c" && wants_pool nproc then
      parallel_or_fallback nx_in common_func_par nproc
    else raise (unrecognized_method _method).

End Manager.

(** The state a call that got past its checks is in when the mapping is
    done: the conversion to float and the six mapping calls are logged. *)
Definition after_mapping (s : state) : state :=
  State (trace s ++ EvAstypeFloat :: mapping_events) (pool s).

(** Column ranges that follow one another from [a] to [c]. *)
Fixpoint chain (a : Z) (ranges : list (Z * Z)) (c : Z) : Prop :=
  match ranges with
  | [] => a = c
  | (x, y) :: rest => x = a ∧ a ≤ y ∧ chain y rest c
  end.

(** Elementwise sum of two accumulator pairs. *)
Definition pair_add `{Scalar F} (p q : grid F * grid F) : grid F * grid F :=
  (grid_add p.1 q.1, grid_add p.2 q.2).

(** Both arrays of an accumulator pair have the output shape. *)
Definition has_out_shape `{Scalar F} (par : common_par F) (p : grid F * grid F) : Prop :=
  has_shape p.1 (shape_out par).1 (shape_out par).2
  ∧ has_shape p.2 (shape_out par).1 (shape_out par).2.

(** What the workers return for a list of column ranges, in order, and
    the pair [parallel_impl] merges them into (lines 201-202). *)
Fixpoint gather `{Scalar F}
    (slice : Z → Z → common_par F → result (grid F * grid F))
    (par : common_par F) (ranges : list (Z * Z)) : result (list (grid F * grid F)) :=
  match ranges with
  | [] => Ok []
  | task :: rest =>
      r ← slice task.1 task.2 par;
      rs ← gather slice par rest;
      mret (r :: rs)
  end.

Definition merged `{Scalar F} (rs : list (grid F * grid F)) : grid F * grid F :=
  (py_sum (fst <$> rs), py_sum (snd <$> rs)).

(** Partition invariance for one request: the merged results of the
    workers are the result of the slice function over all columns, and
    [parallel_impl] returns what [serial_impl] returns (or raises what it
    raises), whatever the states they start in. *)
Definition partition_invariant `{Scalar F}
    (slice : Z → Z → common_par F → result (grid F * grid F))
    (world : env) (nx_in : Z) (par : common_par F) (nproc : option Z) (n : Z) : Prop :=
  rbind (gather slice par (partitions nx_in n)) (λ rs, Ok (merged rs))
  = slice 0 nx_in par
  ∧ ∀ s s', (parallel_impl slice world nx_in par nproc s).2
            = (serial_impl slice nx_in par s').2.

(** The events of the guarded block of [parallel_impl]. *)
Definition is_pool_event (ev : event) : bool :=
  match ev with
  | EvPoolCreate _ | EvApplyAsync _ _ | EvGet _ => true
  | _ => false
  end.

(** The process count [parallel_impl] works with. *)
Definition resolved_count (world : env) (nproc : option Z) : result Z :=
  match nproc with
  | None => cpu_count world
  | Some n => Ok n
  end.

(** A stretch of the program between the states [s] and [s1] logged only
    events of one kind and left the variable [pool] alone. *)
Definition logged (P : event → bool) (s s1 : state) : Prop :=
  pool s1 = pool s ∧ ∃ evs, trace s1 = trace s ++ evs ∧ Forall (λ ev, P ev = true) evs.

(** The calls that release the pool ([terminate], [close] and both
    [join]s) neither fail nor are interrupted. *)
Definition cleanup_completes (world : env) : Prop :=
  terminate_fault world = None ∧ abort_join_fault world = None
  ∧ close_fault world = None ∧ join_fault world = None.

(** The trace of [s1] continues the trace of [s]. *)
Definition extends (s s1 : state) : Prop := ∃ evs, trace s1 = trace s ++ evs.

(** A computation that only adds to the trace. *)
Definition appends {A} (m : M A) : Prop := ∀ s s1 r, m s = (s1, r) → extends s s1.

(** The submissions of lines 196-199: one per column range, in order. *)
Definition submissions (nx_in n : Z) : list event :=
  (λ r, EvApplyAsync r.1 r.2) <$> partitions nx_in n.

(** A run that, from the state [s], first creates a pool of [n] processes
    and then submits one task per column range. *)
Definition starts_pool {A} (run : state * result A) (s : state) (nx_in n : Z) : Prop :=
  ∃ rest, trace run.1 = trace s ++ EvPoolCreate n :: submissions nx_in n ++ rest.

(** What a call does whose guarded block was interrupted in state [s1],
    [s] being the state the block started in and [n] the process count:
    the interrupt is raised again, after [terminate] and [join] when a
    pool exists, and nothing else is logged: no warning, no serial run.
    Up to [s1] the block had logged pool events only, the creation of the
    pool first.  And wherever in [parallel_impl] an interrupt comes from,
    the call ends with it, in the state [parallel_impl] left. *)
Definition cancelled_run {A} (attempt run : state * result A) (s : state) (n : Z)
    (s1 : state) (e : exn) : Prop :=
  run = (State (trace s1 ++ (if pool s1 then [EvPoolTerminate; EvPoolJoin] else []))
           false, Raise e)
  ∧ (∃ evs, trace s1 = trace s ++ evs
            ∧ Forall (λ ev, is_pool_event ev = true) evs
            ∧ (if pool s1 then head evs = Some (EvPoolCreate n) else evs = []))
  ∧ (∀ s2 e2, attempt = (s2, Raise e2) → is_KeyboardInterrupt e2 = true →
              run = (s2, Raise e2)).

(** Once [parallel_impl] is done, whatever its outcome, a pool it created
    has been joined: after [close], or after [terminate]. *)
Definition pool_joined (n : Z) (s s2 : state) : Prop :=
  ∃ evs, trace s2 = trace s ++ evs
         ∧ (evs = []
            ∨ ∃ work, head evs = Some (EvPoolCreate n)
                      ∧ Forall (λ ev, is_pool_event ev = true) work
                      ∧ (evs = work ++ [EvPoolClose; EvPoolJoin]
                         ∨ evs = work ++ [EvPoolTerminate; EvPoolJoin])).

(** No update leaves the output image. *)
Definition inside_output `{Scalar F} (par : common_par F) (us : list update) : Prop :=
  ∀ u, u ∈ us → 0 ≤ u_ii u ≤ nx_out par - 1 ∧ 0 ≤ u_jj u ≤ ny_out par - 1.


(** What a call with [_method = "legacy"] that got past its checks does,
    in binary64, [(flux, weights)] being what its loops return: the loops
    add up the overlap fractions; the call returns [flux / weights] and
    [weights] itself; the quotient is not finite wherever the weight is
    zero.  The serial implementation divides and returns in the same
    way. *)
Definition legacy_run_spec
    (compute_overlap : list spec_float → list spec_float → list spec_float
                       → list spec_float → spec_float)
    (convert_world_coordinates :
       wcs spec_float → wcs spec_float → spec_float → spec_float → spec_float * spec_float)
    (_reproject_slice_cython :
       Z → Z → common_par spec_float → result (grid spec_float * grid spec_float))
    (world : env) (array : grid spec_float) (wcs_in wcs_out : wcs spec_float)
    (shape_out : nat * nat) (parallel : pyval) (s : state)
    (flux weights : grid spec_float) : Prop :=
  let nx_in := Z.of_nat (shape_of array).2 in
  let par := make_common_func_par convert_world_coordinates array wcs_in wcs_out
               shape_out in
  accumulates_fractions compute_overlap py_int par nx_in flux weights
  ∧ normalised flux weights shape_out
  ∧ reproject_celestial compute_overlap convert_world_coordinates
      _reproject_slice_cython world array wcs_in wcs_out shape_out parallel "legacy" s
    = (State (trace (after_mapping s) ++ [EvLegacyLoops]) (pool s),
       Ok (grid_div flux weights, weights))
  ∧ (∀ a w s',
       _reproject_slice_cython 0 nx_in par = Ok (a, w) →
       serial_impl _reproject_slice_cython nx_in par s'
       = (State (trace s' ++ [EvSlice 0 nx_in]) (pool s'), Ok (grid_div a w, w))).

(** Output pixel [(jj, ii)] lies in the clipped box of some input pixel
    of the columns [0 .. nx_in - 1]. *)
Definition reached `{Scalar F} (to_index : F → result Z) (par : common_par F) (nx_in : Z)
    (jj ii : Z) : Prop :=
  ∃ j i box, 0 ≤ i < nx_in ∧ starty par ≤ j < endy par
             ∧ index_box to_index par j i = Ok box
             ∧ (jj, ii) ∈ box_pixels (clip_box par box).

(** The footprint of an outcome: the second array of the pair returned,
    or the exception raised. *)
Definition footprint_of {F} (r : result (grid F * grid F)) : result (grid F) :=
  rbind r (λ p, Ok p.2).

(** [array_new / weights, weights], as every branch ends. *)
Definition divided `{Scalar F} (r : result (grid F * grid F)) : result (grid F * grid F) :=
  rbind r (λ p, Ok (grid_div p.1 p.2, p.2)).

(** Two requests that differ at most in the image. *)
Definition same_geometry {F} (p q : common_par F) : Prop :=
  starty p = starty q ∧ endy p = endy q ∧ nx_out p = nx_out q ∧ ny_out p = ny_out q
  ∧ xp_inout p = xp_inout q ∧ yp_inout p = yp_inout q
  ∧ xw_in p = xw_in q ∧ yw_in p = yw_in q
  ∧ xw_out p = xw_out q ∧ yw_out p = yw_out q
  ∧ shape_out p = shape_out q.

(** The two exceptions [int] raises on a float. *)
Definition index_error (e : exn) : Prop :=
  e = Exn ValueError "cannot convert float NaN to integer"
  ∨ e = Exn OverflowError "cannot convert float infinity to integer".

(** ** A small concrete request, for running the model *)

Module Demo.

(** A projection whose transforms are the identity, and the frame
    conversion between two such projections. *)
Definition plain : wcs spec_float := WCS 2 (λ x y, (x, y)) (λ x y, (x, y)).
Definition same_frame (_ _ : wcs spec_float) (x y : spec_float) := (x, y).

(** An overlap primitive that answers 1.0 for every pair of pixels. *)
Definition unit_overlap (_ _ _ _ : list spec_float) : spec_float := B64.one.

(** Surroundings in which the second [get] raises the given exception. *)
Definition second_get_raises (e : exn) : env :=
  Env (Ok 4) None (λ _, None) (λ k, if decide (k = 1%nat) then Some e else None)
      None None None None.

(** Surroundings with four CPUs in which nothing fails. *)
Definition quiet : env := Env (Ok 4) None (λ _, None) (λ _, None) None None None None.

Definition start : state := State [] false.

(** [KeyboardInterrupt()] and [SystemExit()], raised without a message. *)
Definition ctrl_c : exn := Exn KeyboardInterrupt EmptyString.
Definition sys_exit : exn := Exn SystemExit EmptyString.

(** Surroundings in which no pool can be created, and surroundings in
    which the worker of the second range is lost, so that the second
    [get] raises an [OSError], and ctrl+c is pressed while the [finally]
    clause waits in [pool.join()] for the other workers. *)
Definition worker_lost : exn := Exn OSError "worker lost".
Definition no_pool : env :=
  Env (Ok 4) (Some (Exn OSError "Cannot allocate memory")) (λ _, None) (λ _, None)
      None None None None.
Definition interrupted_cleanup : env :=
  Env (Ok 4) None (λ _, None) (λ k, if decide (k = 1%nat) then Some worker_lost else None)
      None None None (Some ctrl_c).

(** An image of one pixel, of value 3.0, and one whose pixel is blank. *)
Definition pixel : grid spec_float := [[B64.of_Z 3]].
Definition blank : grid spec_float := [[B64.nan]].

(** A 2 x 2 image of finite values, and what the legacy loops make of it
    on an output of 2 rows and 4 columns when every overlap is 1.0: each
    input pixel adds its value to every output pixel of its box, of which
    no column beyond 2 is part. *)
Definition clean : grid spec_float :=
  [[B64.of_Z 3; B64.of_Z 5]; [B64.of_Z 6; B64.of_Z 7]].
Definition clean_flux : grid spec_float :=
  [[B64.of_Z 3; B64.of_Z 8; B64.of_Z 5; B64.zero];
   [B64.of_Z 9; B64.of_Z 21; B64.of_Z 12; B64.zero]].
Definition clean_weights : grid spec_float :=
  [[B64.one; B64.of_Z 2; B64.one; B64.zero];
   [B64.of_Z 2; B64.of_Z 4; B64.of_Z 2; B64.zero]].

(** A 2 x 2 image one of whose pixels is blank (NaN). *)
Definition image : grid spec_float :=
  [[B64.of_Z 3; B64.of_Z 5]; [B64.nan; B64.of_Z 7]].

(** The same over the rationals: identity projections, an overlap
    primitive that answers 1, and a 2 x 2 image. *)
Definition plain_q : wcs Qc := WCS 2 (λ x y, (x, y)) (λ x y, (x, y)).
Definition same_frame_q (_ _ : wcs Qc) (x y : Qc) := (x, y).
Definition unit_overlap_q (_ _ _ _ : list Qc) : Qc := 1%Qc.
Definition image_q : grid Qc :=
  [[Q2Qc (inject_Z 3); Q2Qc (inject_Z 5)]; [Q2Qc (inject_Z 7); Q2Qc (inject_Z 11)]].
Definition request_q : common_par Qc :=
  make_common_func_par same_frame_q image_q plain_q plain_q (2%nat, 2%nat).

(** The request used below: the 2 x 2 image onto a 2 x 2 output, with
    the model of the slice function as the kernel. *)
Definition kernel : Z → Z → common_par spec_float
                    → result (grid spec_float * grid spec_float) :=
  reproject_slice_spec unit_overlap.
Definition request : common_par spec_float :=
  make_common_func_par same_frame image plain plain (2%nat, 2%nat).

(** What the three workers return for that request: the first two
    ranges are empty, the third holds both columns. *)
Definition three_results : list (grid spec_float * grid spec_float) :=
  let nothing := (zeros (2%nat, 2%nat), zeros (2%nat, 2%nat)) in
  [nothing; nothing;
   ([[B64.of_Z 3; B64.of_Z 8]; [B64.nan; B64.nan]],
    [[B64.one; B64.of_Z 2]; [B64.of_Z 2; B64.of_Z 4]])].

(** The state of that request, run with three processes, when the second
    [get] is reached: the pool exists, the three tasks are submitted and
    the first result is in. *)
Definition waiting : state :=
  State (EvAstypeFloat :: mapping_events
           ++ [EvPoolCreate 3; EvApplyAsync 0 0; EvApplyAsync 0 0; EvApplyAsync 0 2;
               EvGet 0])
        true.

(** The same state once the pool has been closed and joined. *)
Definition released : state :=
  State (trace waiting ++ [EvPoolClose; EvPoolJoin]) true.

(** A projection that maps nothing: its world-to-pixel transform answers
    NaN, as for a position outside the projection. *)
Definition nowhere : wcs spec_float :=
  WCS 2 (λ x y, (x, y)) (λ _ _, (B64.nan, B64.nan)).

(** An input pixel lying left of the output image: its corners project to
    x = -1.375 and x = -1.25, and to y = -0.5 and y = 0.5. *)
Definition left_of_image : common_par spec_float :=
  let x0 := B64.div (B64.of_Z (-11)) (B64.of_Z 8) in
  let x1 := B64.div (B64.of_Z (-5)) (B64.of_Z 4) in
  let y0 := B64.sub B64.zero B64.half in
  let y1 := B64.half in
  CommonPar 0 1 1 1 [[x0; x1]; [x0; x1]] [[y0; y0]; [y1; y1]]
            [[x0; x1]; [x0; x1]] [[y0; y0]; [y1; y1]]
            [[y0; y1]; [y0; y1]] [[y0; y0]; [y1; y1]] [[B64.of_Z 3]] (1%nat, 1%nat).

End Demo.

(** ** Properties of the partitioning *)

Section Partitions.
Variables nx_in nproc : Z.
Hypothesis Hnx : 0 ≤ nx_in.
Hypothesis Hnp : 1 ≤ nproc.

Lemma partitions_length : length (partitions nx_in nproc) = Z.to_nat nproc.
Proof. unfold partitions, py_range. rewrite length_fmap, length_seqZ. f_equal; lia. Qed.

Lemma partitions_lookup (i : nat) :
  (Z.of_nat i < nproc) →
  partitions nx_in nproc !! i =
  Some (partition_start nx_in nproc (Z.of_nat i), partition_end nx_in nproc (Z.of_nat i)).
Proof.
  intros Hi. unfold partitions, py_range.
  rewrite list_lookup_fmap, lookup_seqZ_lt by lia. simpl. do 3 f_equal; lia.
Qed.

Lemma quotient_bounds : 0 ≤ nx_in / nproc ∧ nx_in / nproc * nproc ≤ nx_in.
Proof.
  split; [apply Z.div_pos; lia|].
  rewrite Z.mul_comm. apply Z.mul_div_le. lia.
Qed.

Lemma partition_start_0 : partition_start nx_in nproc 0 = 0.
Proof. unfold partition_start. lia. Qed.

Lemma partition_end_last : partition_end nx_in nproc (nproc - 1) = nx_in.
Proof. unfold partition_end. by rewrite decide_True. Qed.

Lemma partition_contiguous i :
  0 ≤ i < nproc - 1 →
  partition_end nx_in nproc i = partition_start nx_in nproc (i + 1).
Proof. intros Hi. unfold partition_end, partition_start. by rewrite decide_False by lia. Qed.

Lemma partition_size_inner i :
  0 ≤ i < nproc - 1 →
  partition_end nx_in nproc i - partition_start nx_in nproc i = nx_in / nproc.
Proof. intros Hi. unfold partition_end, partition_start. rewrite decide_False by lia. lia. Qed.

Lemma partition_size_last :
  partition_end nx_in nproc (nproc - 1) - partition_start nx_in nproc (nproc - 1)
  = nx_in / nproc + nx_in `mod` nproc.
Proof.
  rewrite partition_end_last. unfold partition_start.
  pose proof (Z.div_mod nx_in nproc ltac:(lia)). lia.
Qed.

Lemma partition_ordered i :
  0 ≤ i < nproc →
  0 ≤ partition_start nx_in nproc i ≤ partition_end nx_in nproc i
  ∧ partition_end nx_in nproc i ≤ nx_in.
Proof.
  intros Hi. destruct quotient_bounds as [Hq Hle].
  unfold partition_start, partition_end. case_decide; nia.
Qed.

Lemma partition_start_mono i j :
  0 ≤ i → i < j → j < nproc →
  partition_end nx_in nproc i ≤ partition_start nx_in nproc j.
Proof.
  intros Hi Hij Hj. destruct quotient_bounds as [Hq _].
  unfold partition_start, partition_end. rewrite decide_False by lia. nia.
Qed.

(** Every column lies in some range. *)
Lemma partition_cover c :
  0 ≤ c < nx_in →
  ∃ i, 0 ≤ i < nproc ∧ partition_start nx_in nproc i ≤ c < partition_end nx_in nproc i.
Proof.
  intros Hc. destruct quotient_bounds as [Hq Hle].
  destruct (decide (nx_in / nproc * (nproc - 1) ≤ c)) as [Hlast|Hlast].
  - exists (nproc - 1). rewrite partition_end_last. unfold partition_start. lia.
  - assert (0 < nx_in / nproc) as Hq0 by nia.
    exists (c / (nx_in / nproc)).
    pose proof (Z.div_mod c (nx_in / nproc) ltac:(lia)) as Hdm.
    pose proof (Z.mod_pos_bound c (nx_in / nproc) Hq0) as Hmb.
    assert (0 ≤ c / (nx_in / nproc)) by (apply Z.div_pos; lia).
    assert (c / (nx_in / nproc) < nproc - 1) by nia.
    unfold partition_start, partition_end. rewrite decide_False by lia.
    split; [lia|]. nia.
Qed.

(** No column lies in two ranges. *)
Lemma partition_disjoint i j c :
  0 ≤ i < nproc → 0 ≤ j < nproc →
  partition_start nx_in nproc i ≤ c < partition_end nx_in nproc i →
  partition_start nx_in nproc j ≤ c < partition_end nx_in nproc j →
  i = j.
Proof.
  intros Hi Hj Hci Hcj.
  destruct (Z.lt_trichotomy i j) as [Hlt|[Heq|Hgt]]; [|done|].
  - pose proof (partition_start_mono i j ltac:(lia) Hlt ltac:(lia)). lia.
  - pose proof (partition_start_mono j i ltac:(lia) Hgt ltac:(lia)). lia.
Qed.

End Partitions.

(** C3.  For a column count [nx_in >= 0] and a worker count [nproc >= 1],
    the [nproc] ranges [start_i, end_i) with [start_i = nx_in // nproc * i]
    and [end_i = nx_in] for the last one ([nx_in // nproc * (i + 1)]
    otherwise) are contiguous, do not overlap, cover exactly the columns
    [0 .. nx_in - 1], and are of size [nx_in // nproc] except the last,
    which also takes the remainder. *)
Theorem partitions_tile_columns (nx_in nproc : Z) :
  0 ≤ nx_in → 1 ≤ nproc → tiles_columns nx_in nproc.
Proof.
  intros Hnx Hnp. unfold tiles_columns.
  split; [by apply partitions_length|].
  split; [intros i Hi; by rewrite partitions_lookup|].
  split; [apply partition_start_0|].
  split; [apply partition_end_last|].
  split; [by apply partition_contiguous|].
  split; [by apply partition_ordered|].
  split; [by apply partition_cover|].
  split; [by apply partition_disjoint|].
  split; [by apply partition_size_inner|].
  by apply partition_size_last.
Qed.

(** Ten columns over three workers: [0, 3), [3, 6) and [6, 10). *)
Lemma partitions_tile_columns_witness :
  0 ≤ 10 ∧ 1 ≤ 3 ∧ tiles_columns 10 3.
Proof.
  split; [lia|]. split; [lia|]. apply (partitions_tile_columns 10 3); lia.
Defined.

Example partitions_10_3 : partitions 10 3 = [(0, 3); (3, 6); (6, 10)].
Proof. reflexivity. Qed.

(** More workers than columns: every range but the last is empty. *)
Example partitions_2_4 : partitions 2 4 = [(0, 0); (0, 0); (0, 0); (0, 2)].
Proof. reflexivity. Qed.

(** ** Running the manager up to its dispatch *)

Section Dispatch.
Context `{Scalar F}.
Variable compute_overlap : list F → list F → list F → list F → F.
Variable convert_world_coordinates : wcs F → wcs F → F → F → F * F.
Variable _reproject_slice_cython : Z → Z → common_par F → result (grid F * grid F).
Variable world : env.

Lemma mapping_run shape_in shape_out wcs_in wcs_out s :
  mapping convert_world_coordinates shape_in shape_out wcs_in wcs_out s =
  (State (trace s ++ mapping_events) (pool s),
   Ok (coordinate_mapper convert_world_coordinates shape_in shape_out wcs_in wcs_out)).
Proof.
  unfold mapping, mapping_events, emit, mbind, M_bind, mret, M_ret. simpl.
  rewrite <- !app_assoc. reflexivity.
Qed.

(** A refused flag ends the call where it started. *)
Lemma reproject_bad_flag array wcs_in wcs_out shape_out parallel _method s e :
  check_parallel_flag parallel = Raise e →
  reproject_celestial compute_overlap convert_world_coordinates _reproject_slice_cython
    world array wcs_in wcs_out shape_out parallel _method s = (s, Raise e).
Proof.
  intros He. unfold reproject_celestial. unfold mbind at 1.
  unfold M_bind, lift. by rewrite He.
Qed.

(** A projection that is not 2-dimensional ends it after the conversion
    of the image to float. *)
Lemma reproject_bad_naxis array wcs_in wcs_out shape_out parallel _method s nproc :
  check_parallel_flag parallel = Ok nproc →
  naxis wcs_in ≠ 2 →
  reproject_celestial compute_overlap convert_world_coordinates _reproject_slice_cython
    world array wcs_in wcs_out shape_out parallel _method s
  = (State (trace s ++ [EvAstypeFloat]) (pool s),
     Raise (Exn NotImplementedError
              "Only 2-dimensional arrays can be reprojected at this time")).
Proof.
  intros He Hn. unfold reproject_celestial. unfold mbind at 1.
  unfold M_bind, lift. rewrite He.
  unfold mbind at 1. unfold emit. by rewrite decide_True.
Qed.

(** Past both checks the mapping runs, and the method and the process
    count choose what follows. *)
Lemma reproject_dispatch array wcs_in wcs_out shape_out parallel _method s nproc :
  check_parallel_flag parallel = Ok nproc →
  naxis wcs_in = 2 →
  reproject_celestial compute_overlap convert_world_coordinates _reproject_slice_cython
    world array wcs_in wcs_out shape_out parallel _method s
  = let nx_in := Z.of_nat (shape_of array).2 in
    let par := make_common_func_par convert_world_coordinates array wcs_in wcs_out
                 shape_out in
    (if String.eqb _method "legacy" then
       emit EvLegacyLoops;;
       '(array_new, weights) ← lift (legacy_loops compute_overlap nx_in par);
       mret (grid_div array_new weights, weights)
     else if String.eqb _method "c" && bool_decide (nproc = Some 1) then
       serial_impl _reproject_slice_cython nx_in par
     else if String.eqb _method "c" && wants_pool nproc then
       parallel_or_fallback _reproject_slice_cython world nx_in par nproc
     else raise (unrecognized_method _method)) (after_mapping s).
Proof.
  intros He Hn. unfold reproject_celestial. unfold mbind at 1.
  unfold M_bind, lift. rewrite He.
  unfold mbind at 1. unfold emit at 1. rewrite decide_False by naive_solver.
  unfold mbind at 1. rewrite mapping_run. cbn [trace pool].
  unfold after_mapping. rewrite <- app_assoc. reflexivity.
Qed.

Lemma flag_type_error v :
  (∀ b, v ≠ PyBool b) → (∀ n, v ≠ PyInt n) →
  check_parallel_flag v
  = Raise (Exn TypeError "The 'parallel' flag must be a boolean or integral value").
Proof. intros Hb Hn. destruct v; try done; [by destruct (Hb b)|by destruct (Hn n)]. Qed.

Lemma flag_value_error n :
  n ≤ 0 →
  check_parallel_flag (PyInt n)
  = Raise (Exn ValueError "The number of processors to use must be strictly positive").
Proof. intros Hn. simpl. by rewrite decide_True. Qed.

Lemma flag_positive n : 0 < n → check_parallel_flag (PyInt n) = Ok (Some n).
Proof. intros Hn. simpl. by rewrite decide_False by lia. Qed.

(** With no count given, the pool is sized by [cpu_count()] when
    [parallel_impl] runs. *)
Lemma parallel_impl_auto nx_in par n s :
  cpu_count world = Ok n →
  parallel_impl _reproject_slice_cython world nx_in par None s
  = parallel_impl _reproject_slice_cython world nx_in par (Some n) s.
Proof.
  intros Hn. unfold parallel_impl. unfold mbind at 1 3. unfold M_bind, lift.
  by rewrite Hn.
Qed.

Lemma create_pool_run n s :
  1 ≤ n → pool_fault world = None →
  create_pool world n s = (State (trace s ++ [EvPoolCreate n]) true, Ok ()).
Proof.
  intros Hn Hf. unfold create_pool. rewrite decide_False by lia.
  unfold call. rewrite Hf. reflexivity.
Qed.

(** C10.  The flag's type is compared exactly, so a [bool] never meets the
    test [parallel <= 0]: [False] is accepted although the integer 0 is
    refused, and the call runs the serial implementation; [True] leaves
    the process count to be chosen automatically and the call goes to the
    pool, where the integer 1 would run the serial implementation. *)
Theorem bool_flag_is_not_an_int array wcs_in wcs_out shape_out s :
  let run parallel :=
    reproject_celestial compute_overlap convert_world_coordinates
      _reproject_slice_cython world array wcs_in wcs_out shape_out parallel "c" s in
  let nx_in := Z.of_nat (shape_of array).2 in
  let par := make_common_func_par convert_world_coordinates array wcs_in wcs_out
               shape_out in
  check_parallel_flag (PyBool false) = Ok (Some 1)
  ∧ (∃ msg, check_parallel_flag (PyInt 0) = Raise (Exn ValueError msg))
  ∧ (naxis wcs_in = 2 →
     run (PyBool false) = serial_impl _reproject_slice_cython nx_in par (after_mapping s))
  ∧ check_parallel_flag (PyBool true) = Ok None
  ∧ check_parallel_flag (PyInt 1) = Ok (Some 1)
  ∧ (naxis wcs_in = 2 →
     run (PyBool true)
     = parallel_or_fallback _reproject_slice_cython world nx_in par None (after_mapping s))
  ∧ (naxis wcs_in = 2 →
     run (PyInt 1) = serial_impl _reproject_slice_cython nx_in par (after_mapping s)).
Proof.
  intros run nx_in par. repeat split.
  - by eexists.
  - intros Hax. unfold run. by rewrite (reproject_dispatch _ _ _ _ _ _ _ (Some 1)).
  - intros Hax. unfold run. by rewrite (reproject_dispatch _ _ _ _ _ _ _ None).
  - intros Hax. unfold run. by rewrite (reproject_dispatch _ _ _ _ _ _ _ (Some 1)).
Qed.

(** C8, as the code has it.  A refused flag ends the call before anything
    is done.  A projection that is not 2-dimensional ends it when only the
    conversion of the image to float has run: no corner grid, no
    transform.  A method that is neither ["legacy"] nor ["c"] ends it once
    the whole mapping has run, and before any resampling or pool.  In each
    case the error is the end of the call: nothing is tried again. *)
Theorem configuration_errors array wcs_in wcs_out shape_out parallel _method s :
  let run :=
    reproject_celestial compute_overlap convert_world_coordinates
      _reproject_slice_cython world array wcs_in wcs_out shape_out parallel _method s in
  (∀ e, check_parallel_flag parallel = Raise e → run = (s, Raise e))
  ∧ (∀ nproc, check_parallel_flag parallel = Ok nproc → naxis wcs_in ≠ 2 →
     run = (State (trace s ++ [EvAstypeFloat]) (pool s),
            Raise (Exn NotImplementedError
                     "Only 2-dimensional arrays can be reprojected at this time")))
  ∧ (∀ nproc, check_parallel_flag parallel = Ok nproc → naxis wcs_in = 2 →
     String.eqb _method "legacy" = false → String.eqb _method "c" = false →
     run = (State (trace s ++ EvAstypeFloat :: mapping_events) (pool s),
            Raise (unrecognized_method _method))).
Proof.
  intros run. repeat split.
  - intros e He. by apply reproject_bad_flag.
  - intros nproc He Hax. by apply (reproject_bad_naxis _ _ _ _ _ _ _ nproc).
  - intros nproc He Hax Hl Hc. unfold run.
    rewrite (reproject_dispatch _ _ _ _ _ _ _ nproc) by done.
    cbv zeta. by rewrite Hl, Hc.
Qed.

End Dispatch.

(** C8, as stated, fails: the method ["foo"] is refused only after the
    corner grids were built and every coordinate transform was applied. *)
Lemma unknown_method_raised_after_mapping :
  let run :=
    reproject_celestial Demo.unit_overlap Demo.same_frame
      (reproject_slice_spec Demo.unit_overlap) Demo.quiet
      Demo.image Demo.plain Demo.plain (2%nat, 2%nat) (PyBool false) "foo" Demo.start in
  run.2 = Raise (unrecognized_method "foo")
  ∧ trace run.1 = [EvAstypeFloat; EvCornerGrid true; EvPix2World true;
                   EvCornerGrid false; EvPix2World false; EvConvertFrame; EvWorld2Pix]
  ∧ trace run.1 ≠ trace Demo.start.
Proof. vm_compute. by repeat split. Qed.

(** The two other configuration errors on the same request. *)
Example zero_processes_refused_at_once :
  reproject_celestial Demo.unit_overlap Demo.same_frame
    (reproject_slice_spec Demo.unit_overlap) Demo.quiet
    Demo.image Demo.plain Demo.plain (2%nat, 2%nat) (PyInt 0) "c" Demo.start
  = (Demo.start,
     Raise (Exn ValueError "The number of processors to use must be strictly positive")).
Proof. reflexivity. Qed.

Example false_flag_runs_serially :
  trace (reproject_celestial Demo.unit_overlap Demo.same_frame
           (reproject_slice_spec Demo.unit_overlap) Demo.quiet
           Demo.image Demo.plain Demo.plain (2%nat, 2%nat) (PyBool false) "c" Demo.start).1
  = EvAstypeFloat :: mapping_events ++ [EvSlice 0 2].
Proof. vm_compute. reflexivity. Qed.

(** ** The coordinate mapper *)

Section MapperFacts.
Context `{Scalar F}.
Variable convert_world_coordinates : wcs F → wcs F → F → F → F * F.

Lemma corner_axis_length n : length (corner_axis n) = S n.
Proof. unfold corner_axis, arange. rewrite !length_fmap, length_seqZ. lia. Qed.

Lemma corner_axis_lookup n (i : nat) :
  (i ≤ n)%nat → corner_axis n !! i = Some (fsub (of_int (Z.of_nat i)) fhalf).
Proof.
  intros Hi. unfold corner_axis, arange.
  rewrite !list_lookup_fmap, lookup_seqZ_lt by lia. simpl. by rewrite Z.add_0_l.
Qed.

Lemma cell_Some (g : grid F) j i row x :
  g !! j = Some row → row !! i = Some x → cell g j i = Some x.
Proof. intros Hr Hx. unfold cell. rewrite Hr. exact Hx. Qed.

Lemma corner_grid_shape ny nx :
  has_shape (corner_grid (ny, nx)).1 (S ny) (S nx)
  ∧ has_shape (corner_grid (ny, nx)).2 (S ny) (S nx).
Proof.
  unfold corner_grid, meshgrid, has_shape. cbn [fst snd].
  rewrite length_replicate, length_fmap, !corner_axis_length.
  repeat split.
  - apply Forall_replicate, corner_axis_length.
  - apply Forall_fmap, Forall_true. intros v. unfold compose.
    by rewrite length_replicate.
Qed.

Lemma corner_grid_cell ny nx (j i : nat) :
  (j ≤ ny)%nat → (i ≤ nx)%nat →
  cell (corner_grid (ny, nx)).1 j i = Some (fsub (of_int (Z.of_nat i)) fhalf)
  ∧ cell (corner_grid (ny, nx)).2 j i = Some (fsub (of_int (Z.of_nat j)) fhalf).
Proof.
  intros Hj Hi. unfold corner_grid, meshgrid. cbn [fst snd]. split.
  - eapply cell_Some; [|by apply corner_axis_lookup].
    apply lookup_replicate_2. rewrite corner_axis_length. lia.
  - eapply cell_Some.
    + rewrite list_lookup_fmap, corner_axis_lookup by done. reflexivity.
    + apply lookup_replicate_2. rewrite corner_axis_length. lia.
Qed.

Lemma zip_rows_shape (f : F → F → F) (a b : grid F) rows cols :
  has_shape a rows cols → has_shape b rows cols →
  has_shape (zip_with (zip_with f) a b) rows cols.
Proof.
  intros [Hla Ha] [Hlb Hb]. split.
  - rewrite length_zip_with. lia.
  - rewrite Forall_lookup in Ha, Hb. apply Forall_lookup. intros k row Hrow.
    apply lookup_zip_with_Some in Hrow as (ra & rb & -> & Hra & Hrb).
    rewrite length_zip_with, (Ha k ra), (Hb k rb) by done. lia.
Qed.

Lemma zip_rows_cell (f : F → F → F) (a b : grid F) j i x y :
  cell a j i = Some x → cell b j i = Some y →
  cell (zip_with (zip_with f) a b) j i = Some (f x y).
Proof.
  unfold cell. intros Ha Hb.
  destruct (a !! j) as [ra|] eqn:Hra; [|done].
  destruct (b !! j) as [rb|] eqn:Hrb; [|done].
  simpl in Ha, Hb. rewrite lookup_zip_with, Hra, Hrb. simpl.
  by rewrite lookup_zip_with, Ha, Hb.
Qed.

Lemma vectorized_shape (f : F → F → F * F) (a b : grid F) rows cols :
  has_shape a rows cols → has_shape b rows cols →
  has_shape (vectorized f a b).1 rows cols ∧ has_shape (vectorized f a b).2 rows cols.
Proof. intros Ha Hb. split; by apply zip_rows_shape. Qed.

Lemma vectorized_cell (f : F → F → F * F) (a b : grid F) j i x y :
  cell a j i = Some x → cell b j i = Some y →
  cell (vectorized f a b).1 j i = Some (f x y).1
  ∧ cell (vectorized f a b).2 j i = Some (f x y).2.
Proof.
  intros Ha Hb. split.
  - apply (zip_rows_cell (λ a b, (f a b).1)); done.
  - apply (zip_rows_cell (λ a b, (f a b).2)); done.
Qed.

(** The arrays of the mapper, one by one. *)
Lemma coordinate_mapper_unfold shape_in shape_out wcs_in wcs_out :
  let cm := coordinate_mapper convert_world_coordinates shape_in shape_out wcs_in wcs_out in
  cm_xp_in cm = (corner_grid shape_in).1
  ∧ cm_yp_in cm = (corner_grid shape_in).2
  ∧ cm_xw_in0 cm = (vectorized (wcs_pix2world wcs_in) (cm_xp_in cm) (cm_yp_in cm)).1
  ∧ cm_yw_in0 cm = (vectorized (wcs_pix2world wcs_in) (cm_xp_in cm) (cm_yp_in cm)).2
  ∧ cm_xp_out cm = (corner_grid shape_out).1
  ∧ cm_yp_out cm = (corner_grid shape_out).2
  ∧ cm_xw_out cm = (vectorized (wcs_pix2world wcs_out) (cm_xp_out cm) (cm_yp_out cm)).1
  ∧ cm_yw_out cm = (vectorized (wcs_pix2world wcs_out) (cm_xp_out cm) (cm_yp_out cm)).2
  ∧ cm_xw_in cm = (vectorized (convert_world_coordinates wcs_in wcs_out)
                     (cm_xw_in0 cm) (cm_yw_in0 cm)).1
  ∧ cm_yw_in cm = (vectorized (convert_world_coordinates wcs_in wcs_out)
                     (cm_xw_in0 cm) (cm_yw_in0 cm)).2
  ∧ cm_xp_inout cm = (vectorized (wcs_world2pix wcs_out) (cm_xw_in cm) (cm_yw_in cm)).1
  ∧ cm_yp_inout cm = (vectorized (wcs_world2pix wcs_out) (cm_xw_in cm) (cm_yw_in cm)).2.
Proof.
  unfold coordinate_mapper.
  destruct (corner_grid shape_in) as [xp_in yp_in].
  destruct (corner_grid shape_out) as [xp_out yp_out].
  simpl. done.
Qed.

(** C9.  For an input of [ny_in] rows and [nx_in] columns the mapper
    builds one corner per pixel edge, [nx_in + 1] across and [ny_in + 1]
    down, corner [(j, i)] at [(i - 0.5, j - 0.5)]; it applies the input
    projection's pixel-to-world transform to every corner; it does the
    same for the output shape with the output projection; it converts the
    input corners' world coordinates to the output frame; and it applies
    the output projection's world-to-pixel transform to the converted
    coordinates, which gives the input corners' positions in the output
    image. *)
Theorem coordinate_mapper_corners ny_in nx_in ny_out nx_out wcs_in wcs_out :
  let cm := coordinate_mapper convert_world_coordinates
              (ny_in, nx_in) (ny_out, nx_out) wcs_in wcs_out in
  (∀ g, g ∈ [cm_xp_in cm; cm_yp_in cm; cm_xw_in0 cm; cm_yw_in0 cm;
             cm_xw_in cm; cm_yw_in cm; cm_xp_inout cm; cm_yp_inout cm] →
        has_shape g (S ny_in) (S nx_in))
  ∧ (∀ g, g ∈ [cm_xp_out cm; cm_yp_out cm; cm_xw_out cm; cm_yw_out cm] →
          has_shape g (S ny_out) (S nx_out))
  ∧ (∀ j i : nat, (j ≤ ny_in)%nat → (i ≤ nx_in)%nat →
       let x := fsub (of_int (Z.of_nat i)) fhalf in
       let y := fsub (of_int (Z.of_nat j)) fhalf in
       let w := wcs_pix2world wcs_in x y in
       let c := convert_world_coordinates wcs_in wcs_out w.1 w.2 in
       let p := wcs_world2pix wcs_out c.1 c.2 in
       cell (cm_xp_in cm) j i = Some x ∧ cell (cm_yp_in cm) j i = Some y
       ∧ cell (cm_xw_in0 cm) j i = Some w.1 ∧ cell (cm_yw_in0 cm) j i = Some w.2
       ∧ cell (cm_xw_in cm) j i = Some c.1 ∧ cell (cm_yw_in cm) j i = Some c.2
       ∧ cell (cm_xp_inout cm) j i = Some p.1 ∧ cell (cm_yp_inout cm) j i = Some p.2)
  ∧ (∀ j i : nat, (j ≤ ny_out)%nat → (i ≤ nx_out)%nat →
       let x := fsub (of_int (Z.of_nat i)) fhalf in
       let y := fsub (of_int (Z.of_nat j)) fhalf in
       let w := wcs_pix2world wcs_out x y in
       cell (cm_xp_out cm) j i = Some x ∧ cell (cm_yp_out cm) j i = Some y
       ∧ cell (cm_xw_out cm) j i = Some w.1 ∧ cell (cm_yw_out cm) j i = Some w.2).
Proof.
  intros cm.
  destruct (coordinate_mapper_unfold (ny_in, nx_in) (ny_out, nx_out) wcs_in wcs_out)
    as (E1 & E2 & E3 & E4 & E5 & E6 & E7 & E8 & E9 & E10 & E11 & E12).
  fold cm in E1, E2, E3, E4, E5, E6, E7, E8, E9, E10, E11, E12.
  destruct (corner_grid_shape ny_in nx_in) as [S1 S2]. rewrite <- E1, <- E2 in *.
  destruct (vectorized_shape (wcs_pix2world wcs_in) _ _ _ _ S1 S2) as [S3 S4].
  rewrite <- E3, <- E4 in *.
  destruct (vectorized_shape (convert_world_coordinates wcs_in wcs_out) _ _ _ _ S3 S4)
    as [S9 S10].
  rewrite <- E9, <- E10 in *.
  destruct (vectorized_shape (wcs_world2pix wcs_out) _ _ _ _ S9 S10) as [S11 S12].
  rewrite <- E11, <- E12 in *.
  destruct (corner_grid_shape ny_out nx_out) as [S5 S6]. rewrite <- E5, <- E6 in *.
  destruct (vectorized_shape (wcs_pix2world wcs_out) _ _ _ _ S5 S6) as [S7 S8].
  rewrite <- E7, <- E8 in *.
  split; [|split; [|split]].
  - intros g Hg. repeat (apply elem_of_cons in Hg as [->|Hg]; [done|]).
    by apply elem_of_nil in Hg.
  - intros g Hg. repeat (apply elem_of_cons in Hg as [->|Hg]; [done|]).
    by apply elem_of_nil in Hg.
  - intros j i Hj Hi x y w c p.
    destruct (corner_grid_cell ny_in nx_in j i Hj Hi) as [C1 C2].
    rewrite <- E1 in C1. rewrite <- E2 in C2.
    destruct (vectorized_cell (wcs_pix2world wcs_in) _ _ _ _ _ _ C1 C2) as [C3 C4].
    rewrite <- E3 in C3. rewrite <- E4 in C4.
    destruct (vectorized_cell (convert_world_coordinates wcs_in wcs_out) _ _ _ _ _ _ C3 C4)
      as [C9 C10].
    rewrite <- E9 in C9. rewrite <- E10 in C10.
    destruct (vectorized_cell (wcs_world2pix wcs_out) _ _ _ _ _ _ C9 C10) as [C11 C12].
    rewrite <- E11 in C11. rewrite <- E12 in C12.
    done.
  - intros j i Hj Hi x y w.
    destruct (corner_grid_cell ny_out nx_out j i Hj Hi) as [C5 C6].
    rewrite <- E5 in C5. rewrite <- E6 in C6.
    destruct (vectorized_cell (wcs_pix2world wcs_out) _ _ _ _ _ _ C5 C6) as [C7 C8].
    rewrite <- E7 in C7. rewrite <- E8 in C8.
    done.
Qed.

End MapperFacts.

(** The corners of a single pixel sit at -0.5 and 0.5 on both axes. *)
Example corner_grid_one_pixel :
  corner_grid (F := spec_float) (1%nat, 1%nat)
  = ([[B64.sub B64.zero B64.half; B64.half]; [B64.sub B64.zero B64.half; B64.half]],
     [[B64.sub B64.zero B64.half; B64.sub B64.zero B64.half]; [B64.half; B64.half]]).
Proof. vm_compute. reflexivity. Qed.

(** ** The loops as a list of updates *)

Section LoopFacts.
Context `{Scalar F}.
Variable compute_overlap : list F → list F → list F → list F → F.
Variable to_index : F → result Z.
Variable par : common_par F.

Lemma rbind_Ok {A B} (m : result A) (f : A → result B) b :
  m ≫= f = Ok b ↔ ∃ a, m = Ok a ∧ f a = Ok b.
Proof.
  destruct m as [a|e]; simpl.
  - split; [intros Hf; by exists a|intros (a' & [= <-] & Hf); done].
  - split; [done|intros (a' & [=] & _)].
Qed.

Lemma resample_pixel_updates acc j i :
  resample_pixel compute_overlap to_index par acc j i
  = us ← pixel_updates to_index par j i; Ok (foldl (apply_update compute_overlap par) acc us).
Proof.
  unfold resample_pixel, pixel_updates.
  destruct (index_box to_index par j i) as [box|e]; [|done]. simpl.
  unfold mret, result_ret. f_equal.
  rewrite foldl_fmap. reflexivity.
Qed.

Lemma rows_loop_updates rows i acc :
  for_each (λ acc j, resample_pixel compute_overlap to_index par acc j i) rows acc
  = us ← rows_updates to_index par rows i;
    Ok (foldl (apply_update compute_overlap par) acc us).
Proof.
  revert acc. induction rows as [|j rows IH]; intros acc; [done|].
  simpl. rewrite resample_pixel_updates.
  destruct (pixel_updates to_index par j i) as [us|e]; [|done]. simpl.
  rewrite IH. destruct (rows_updates to_index par rows i) as [rest|e]; [|done]. simpl.
  by rewrite foldl_app.
Qed.

Lemma columns_loop_updates cols acc :
  for_each (λ acc i,
    for_each (λ acc j, resample_pixel compute_overlap to_index par acc j i)
      (py_range (starty par) (endy par)) acc) cols acc
  = us ← columns_updates to_index par cols;
    Ok (foldl (apply_update compute_overlap par) acc us).
Proof.
  revert acc. induction cols as [|i cols IH]; intros acc; [done|].
  simpl. rewrite rows_loop_updates.
  destruct (rows_updates to_index par _ i) as [us|e]; [|done]. simpl.
  rewrite IH. destruct (columns_updates to_index par cols) as [rest|e]; [|done]. simpl.
  by rewrite foldl_app.
Qed.

(** The loops over a column range perform the updates of that range, in
    order, and raise where listing them raises. *)
Lemma resample_columns_updates startx endx acc :
  resample_columns compute_overlap to_index par startx endx acc
  = us ← slice_updates to_index par startx endx;
    Ok (foldl (apply_update compute_overlap par) acc us).
Proof. apply columns_loop_updates. Qed.

Lemma box_pixels_elem xmin xmax ymin ymax jj ii :
  (jj, ii) ∈ box_pixels (xmin, xmax, ymin, ymax)
  ↔ xmin ≤ ii ≤ xmax ∧ ymin ≤ jj ≤ ymax.
Proof.
  unfold box_pixels, py_range. rewrite list_elem_of_bind. split.
  - intros (ii' & Hin & Hii). apply list_elem_of_bind in Hin as (jj' & Hin & Hjj).
    apply list_elem_of_singleton in Hin as [= -> ->].
    apply elem_of_seqZ in Hii, Hjj. lia.
  - intros [Hii Hjj]. exists ii. split; [|apply elem_of_seqZ; lia].
    apply list_elem_of_bind. exists jj. split; [by apply list_elem_of_singleton|].
    apply elem_of_seqZ. lia.
Qed.

Lemma box_pixels_empty xmin xmax ymin ymax :
  xmax < xmin ∨ ymax < ymin → box_pixels (xmin, xmax, ymin, ymax) = [].
Proof.
  intros Hempty. apply elem_of_nil_inv. intros [jj ii] Hin.
  apply box_pixels_elem in Hin. lia.
Qed.

Lemma pixel_updates_elem j i us u :
  pixel_updates to_index par j i = Ok us →
  u ∈ us ↔ u_j u = j ∧ u_i u = i
           ∧ ∃ box, index_box to_index par j i = Ok box
                    ∧ (u_jj u, u_ii u) ∈ box_pixels (clip_box par box).
Proof.
  unfold pixel_updates. intros Hus.
  apply rbind_Ok in Hus as (box & Hbox & [= <-]).
  rewrite list_elem_of_fmap. split.
  - intros ([jj ii] & -> & Hin). simpl. eauto.
  - intros (<- & <- & box' & Hbox' & Hin). rewrite Hbox in Hbox'. injection Hbox' as <-.
    exists (u_jj u, u_ii u). split; [by destruct u|done].
Qed.

Lemma rows_updates_elem rows i us u :
  rows_updates to_index par rows i = Ok us →
  u ∈ us ↔ u_j u ∈ rows ∧ u_i u = i
           ∧ ∃ box, index_box to_index par (u_j u) i = Ok box
                    ∧ (u_jj u, u_ii u) ∈ box_pixels (clip_box par box).
Proof.
  revert us. induction rows as [|j rows IH]; intros us Hus.
  - injection Hus as <-. split; [by intros ?%elem_of_nil|by intros [?%elem_of_nil _]].
  - simpl in Hus. apply rbind_Ok in Hus as (us1 & H1 & Hus).
    apply rbind_Ok in Hus as (us2 & H2 & [= <-]).
    rewrite elem_of_app, (pixel_updates_elem _ _ _ _ H1), (IH _ H2), elem_of_cons.
    split.
    + intros [(<- & Hi & Hb)|(Hj & Hi & Hb)]; eauto.
    + intros ([->|Hj] & Hi & Hb); eauto.
Qed.

Lemma columns_updates_elem cols us u :
  columns_updates to_index par cols = Ok us →
  u ∈ us ↔ u_i u ∈ cols ∧ u_j u ∈ py_range (starty par) (endy par)
           ∧ ∃ box, index_box to_index par (u_j u) (u_i u) = Ok box
                    ∧ (u_jj u, u_ii u) ∈ box_pixels (clip_box par box).
Proof.
  revert us. induction cols as [|i cols IH]; intros us Hus.
  - injection Hus as <-. split; [by intros ?%elem_of_nil|by intros [?%elem_of_nil _]].
  - simpl in Hus. apply rbind_Ok in Hus as (us1 & H1 & Hus).
    apply rbind_Ok in Hus as (us2 & H2 & [= <-]).
    rewrite elem_of_app, (rows_updates_elem _ _ _ _ H1), (IH _ H2), elem_of_cons.
    split.
    + intros [(Hj & <- & Hb)|(Hi & Hj & Hb)]; eauto.
    + intros ([->|Hi] & Hj & Hb); eauto.
Qed.

End LoopFacts.

(** ** Arrays entry by entry *)

Section ArrayFacts.
Context `{Scalar F}.

Lemma cell_lookup (g : grid F) j i x :
  cell g j i = Some x ↔ ∃ row, g !! j = Some row ∧ row !! i = Some x.
Proof.
  unfold cell. destruct (g !! j) as [row|]; simpl.
  - split; [eauto|]. by intros (row' & [= <-] & Hx).
  - split; [done|]. by intros (row' & [=] & _).
Qed.

Lemma cell_add_at (g : grid F) jj ii v (j i : nat) :
  cell (add_at g jj ii v) j i
  = if decide (jj = Z.of_nat j ∧ ii = Z.of_nat i)
    then (λ x, fadd x v) <$> cell g j i
    else cell g j i.
Proof.
  unfold add_at, cell. destruct (decide (0 ≤ jj ∧ 0 ≤ ii)) as [Hnn|Hneg].
  - destruct (decide (Z.to_nat jj = j)) as [<-|Hj].
    + rewrite list_lookup_alter_eq. destruct (g !! Z.to_nat jj) as [row|]; simpl.
      * destruct (decide (Z.to_nat ii = i)) as [<-|Hi].
        -- rewrite list_lookup_alter_eq, decide_True by lia. done.
        -- rewrite list_lookup_alter_ne, decide_False by lia. done.
      * by case_decide.
    + rewrite list_lookup_alter_ne by done. rewrite decide_False by lia. done.
  - rewrite decide_False by lia. done.
Qed.

Lemma add_at_shape (g : grid F) jj ii v rows cols :
  has_shape g rows cols → has_shape (add_at g jj ii v) rows cols.
Proof.
  intros [Hl Hr]. unfold add_at. case_decide; [|done]. split.
  - by rewrite length_alter.
  - rewrite Forall_lookup in Hr. apply Forall_lookup. intros k row Hk.
    destruct (decide (Z.to_nat jj = k)) as [<-|Hne].
    + rewrite list_lookup_alter_eq in Hk.
      destruct (g !! Z.to_nat jj) as [row'|] eqn:Hrow; [|done].
      injection Hk as <-. rewrite length_alter. by eapply Hr.
    + rewrite list_lookup_alter_ne in Hk by done. by eapply Hr.
Qed.

Lemma zeros_shape rows cols : has_shape (zeros (rows, cols)) rows cols.
Proof.
  unfold zeros, has_shape. simpl. split; [apply length_replicate|].
  apply Forall_replicate, length_replicate.
Qed.

Lemma cell_zeros rows cols (j i : nat) :
  (j < rows)%nat → (i < cols)%nat → cell (zeros (rows, cols)) j i = Some f0.
Proof.
  intros Hj Hi. unfold zeros, cell. simpl.
  rewrite lookup_replicate_2 by done. simpl. by apply lookup_replicate_2.
Qed.

Lemma has_shape_cell (g : grid F) rows cols (j i : nat) :
  has_shape g rows cols → (j < rows)%nat → (i < cols)%nat → is_Some (cell g j i).
Proof.
  intros [Hl Hr] Hj Hi. rewrite Forall_lookup in Hr.
  destruct (lookup_lt_is_Some_2 g j) as [row Hrow]; [lia|].
  destruct (lookup_lt_is_Some_2 row i) as [x Hx]; [rewrite (Hr j row Hrow); lia|].
  exists x. apply cell_lookup. eauto.
Qed.

(** Two arrays of one shape with the same entries are the same array. *)
Lemma grid_eq (a b : grid F) rows cols :
  has_shape a rows cols → has_shape b rows cols →
  (∀ j i, (j < rows)%nat → (i < cols)%nat → cell a j i = cell b j i) → a = b.
Proof.
  intros [Hla Ha] [Hlb Hb] Hcell. rewrite Forall_lookup in Ha, Hb.
  apply list_eq. intros j.
  destruct (decide (j < rows)%nat) as [Hj|Hj].
  - destruct (lookup_lt_is_Some_2 a j) as [ra Hra]; [lia|].
    destruct (lookup_lt_is_Some_2 b j) as [rb Hrb]; [lia|].
    rewrite Hra, Hrb. f_equal. apply list_eq. intros i.
    destruct (decide (i < cols)%nat) as [Hi|Hi].
    + specialize (Hcell j i Hj Hi). unfold cell in Hcell. by rewrite Hra, Hrb in Hcell.
    + rewrite !(proj2 (lookup_ge_None _ _)); [done| |].
      * rewrite (Hb j rb Hrb). lia.
      * rewrite (Ha j ra Hra). lia.
  - rewrite !(proj2 (lookup_ge_None _ _)); [done|lia|lia].
Qed.

End ArrayFacts.

Section CellFacts.
Context `{Scalar F}.
Variable compute_overlap : list F → list F → list F → list F → F.
Variable par : common_par F.

(** An update adds its two terms at its output pixel. *)
Lemma apply_update_unfold acc u :
  apply_update compute_overlap par acc u
  = (add_at acc.1 (u_jj u) (u_ii u)
       (flux_term compute_overlap par (u_j u) (u_i u) (u_jj u) (u_ii u)),
     add_at acc.2 (u_jj u) (u_ii u)
       (fraction compute_overlap par (u_j u) (u_i u) (u_jj u) (u_ii u))).
Proof. reflexivity. Qed.

Lemma foldl_updates_shape us acc rows cols :
  has_shape acc.1 rows cols → has_shape acc.2 rows cols →
  has_shape (foldl (apply_update compute_overlap par) acc us).1 rows cols
  ∧ has_shape (foldl (apply_update compute_overlap par) acc us).2 rows cols.
Proof.
  revert acc. induction us as [|u us IH]; intros acc H1 H2; [done|].
  simpl. apply IH; rewrite apply_update_unfold; simpl; by apply add_at_shape.
Qed.

Lemma foldl_updates_cell us acc (j i : nat) x w :
  cell acc.1 j i = Some x → cell acc.2 j i = Some w →
  cell (foldl (apply_update compute_overlap par) acc us).1 j i
    = Some (foldl fadd x
              ((λ u, flux_term compute_overlap par (u_j u) (u_i u) (u_jj u) (u_ii u))
                 <$> aimed_at j i us))
  ∧ cell (foldl (apply_update compute_overlap par) acc us).2 j i
    = Some (foldl fadd w
              ((λ u, fraction compute_overlap par (u_j u) (u_i u) (u_jj u) (u_ii u))
                 <$> aimed_at j i us)).
Proof.
  revert acc x w. induction us as [|u us IH]; intros acc x w Hx Hw; [done|].
  simpl. unfold aimed_at. rewrite filter_cons. fold (aimed_at j i us).
  destruct (decide (u_jj u = Z.of_nat j ∧ u_ii u = Z.of_nat i)) as [Hu|Hu].
  - simpl. apply IH; rewrite apply_update_unfold; simpl;
      rewrite cell_add_at, decide_True by done.
    + by rewrite Hx.
    + by rewrite Hw.
  - apply IH; rewrite apply_update_unfold; simpl;
      rewrite cell_add_at, decide_False by done; done.
Qed.

(** The loops from zero arrays, seen from one output pixel. *)
Lemma loops_accumulate to_index nx_in flux weights :
  resample_slice compute_overlap to_index par 0 nx_in = Ok (flux, weights) →
  accumulates_fractions compute_overlap to_index par nx_in flux weights.
Proof.
  unfold resample_slice. rewrite resample_columns_updates.
  intros (us & Hus & [= Hfold])%rbind_Ok. exists us.
  destruct (shape_out par) as [rows cols] eqn:Hshape. cbn [fst snd].
  pose proof (foldl_updates_shape us (zeros (rows, cols), zeros (rows, cols)) rows cols
                (zeros_shape rows cols) (zeros_shape rows cols)) as [Hs1 Hs2].
  rewrite Hfold in Hs1, Hs2. cbn [fst snd] in Hs1, Hs2.
  split; [done|]. split; [|split; [done|split; [done|split; [done|]]]].
  - intros u. unfold slice_updates in Hus.
    rewrite (columns_updates_elem _ _ _ _ _ Hus). unfold py_range.
    rewrite !elem_of_seqZ. split; intros (? & ? & ?); (split; [lia|split; [lia|done]]).
  - intros j i Hj Hi.
    pose proof (foldl_updates_cell us (zeros (rows, cols), zeros (rows, cols)) j i f0 f0
                  (cell_zeros rows cols j i Hj Hi) (cell_zeros rows cols j i Hj Hi))
      as [Hc1 Hc2].
    rewrite Hfold in Hc1, Hc2. done.
Qed.

End CellFacts.

(** ** binary64 *)

Lemma eqb_zero_inv w : B64.eqb w B64.zero = true → ∃ s, w = S754_zero s.
Proof. destruct w as [s|[]| |[] m e]; try done. intros _. by exists s. Qed.

(** A quotient by a zero is an infinity or a NaN. *)
Lemma div_by_zero_not_finite x w :
  B64.eqb w B64.zero = true → B64.is_finite (B64.div x w) = false.
Proof. intros [s ->]%eqb_zero_inv. by destruct x as [sx|sx| |sx m e]. Qed.

Lemma floor_of_nonnegative x : B64.ltb x B64.zero = false → B64.floor x = B64.to_int x.
Proof. destruct x as [s|s| |[] m e]; done. Qed.

Lemma floor_below_int x z :
  B64.to_int x = Ok z → B64.floor x = Ok z ∨ B64.floor x = Ok (z - 1).
Proof.
  destruct x as [s|s| |s m e]; try done; intros [= <-]; [by left|].
  destruct s; [|by left]. simpl.
  destruct (Z.le_gt_cases 0 e) as [He|He].
  - left. f_equal. rewrite !Z.shiftl_mul_pow2 by done. lia.
  - assert (∃ k, 0 < k ∧ e = - k) as (k & Hk & ->) by (exists (- e); lia).
    rewrite !Z.shiftl_div_pow2, !Z.opp_involutive by lia.
    assert (0 < 2 ^ k) as Hd by (apply Z.pow_pos_nonneg; lia).
    change (Z.neg m) with (- Z.pos m).
    destruct (decide (Z.pos m `mod` 2 ^ k = 0)) as [Hz|Hnz].
    + left. f_equal. by apply Z_div_zero_opp_full.
    + right. f_equal. rewrite Z_div_nz_opp_full; [lia|lia|done].
Qed.

Lemma normalised_div flux weights rows cols :
  has_shape flux rows cols → has_shape weights rows cols →
  normalised flux weights (rows, cols).
Proof.
  intros Hf Hw j i Hj Hi. cbn [fst snd] in Hj, Hi.
  destruct (has_shape_cell flux rows cols j i Hf Hj Hi) as [f Hcf].
  destruct (has_shape_cell weights rows cols j i Hw Hj Hi) as [w Hcw].
  exists f, w. split; [done|]. split; [done|]. split.
  - by apply (zip_rows_cell (F := spec_float) B64.div).
  - apply div_by_zero_not_finite.
Qed.

(** ** The legacy loops in binary64 *)

Section LegacyRun.
Variable compute_overlap :
  list spec_float → list spec_float → list spec_float → list spec_float → spec_float.
Variable convert_world_coordinates :
  wcs spec_float → wcs spec_float → spec_float → spec_float → spec_float * spec_float.
Variable _reproject_slice_cython :
  Z → Z → common_par spec_float → result (grid spec_float * grid spec_float).
Variable world : env.

Lemma serial_impl_run nx_in par a w s :
  _reproject_slice_cython 0 nx_in par = Ok (a, w) →
  serial_impl _reproject_slice_cython nx_in par s
  = (State (trace s ++ [EvSlice 0 nx_in]) (pool s), Ok (grid_div a w, w)).
Proof.
  intros Hk. unfold serial_impl. unfold mbind at 1. unfold M_bind, emit.
  unfold mbind, lift. by rewrite Hk.
Qed.

(** What the legacy loops add up.  For every input pixel the loops
    process and every output pixel of its clipped box, the fraction added is
    [overlap(in, out) / overlap(out, out)], both quadrilaterals being the
    four corners reversed; [array_new[jj, ii]] receives
    [array[j, i] * overlap / original] and [weights[jj, ii]] the fraction;
    the call returns [array_new / weights], entry by entry, and [weights]
    itself as the footprint; the quotient is not finite wherever the
    weight is zero. *)
Theorem legacy_sums_overlap_fractions array wcs_in wcs_out shape_out parallel nproc s
    flux weights :
  check_parallel_flag parallel = Ok nproc →
  naxis wcs_in = 2 →
  legacy_loops compute_overlap (Z.of_nat (shape_of array).2)
    (make_common_func_par convert_world_coordinates array wcs_in wcs_out shape_out)
  = Ok (flux, weights) →
  legacy_run_spec compute_overlap convert_world_coordinates _reproject_slice_cython
    world array wcs_in wcs_out shape_out parallel s flux weights.
Proof.
  intros Hflag Hax Hloops. unfold legacy_run_spec. cbv zeta.
  pose proof (loops_accumulate _ _ _ _ _ _ Hloops) as Hacc.
  split; [exact Hacc|].
  destruct Hacc as (us & _ & _ & _ & Hs1 & Hs2 & _). simpl in Hs1, Hs2.
  split; [destruct shape_out as [rows cols]; by apply normalised_div|].
  split.
  - rewrite (reproject_dispatch _ _ _ _ _ _ _ _ _ _ _ nproc) by done.
    cbv zeta. cbn [String.eqb Ascii.eqb Bool.eqb].
    unfold mbind at 1. unfold M_bind, emit. unfold mbind, lift.
    rewrite Hloops. reflexivity.
  - intros a w s'. apply serial_impl_run.
Qed.

End LegacyRun.

(** The 2 x 2 image of values 3, 5, 6 and 7 onto an output of 2 rows and
    4 columns: the columns 0 and 1 receive two terms each, column 2 one,
    and column 3, which no box holds, keeps the weight zero. *)
Lemma legacy_sums_overlap_fractions_witness :
  check_parallel_flag (PyBool false) = Ok (Some 1)
  ∧ naxis Demo.plain = 2
  ∧ legacy_loops Demo.unit_overlap (Z.of_nat (shape_of Demo.clean).2)
      (make_common_func_par Demo.same_frame Demo.clean Demo.plain Demo.plain (2%nat, 4%nat))
    = Ok (Demo.clean_flux, Demo.clean_weights)
  ∧ legacy_run_spec Demo.unit_overlap Demo.same_frame
      (reproject_slice_spec Demo.unit_overlap) Demo.quiet
      Demo.clean Demo.plain Demo.plain (2%nat, 4%nat) (PyBool false) Demo.start
      Demo.clean_flux Demo.clean_weights.
Proof.
  split; [reflexivity|]. split; [reflexivity|]. split; [vm_compute; reflexivity|].
  apply (legacy_sums_overlap_fractions Demo.unit_overlap Demo.same_frame
           (reproject_slice_spec Demo.unit_overlap) Demo.quiet
           Demo.clean Demo.plain Demo.plain (2%nat, 4%nat) (PyBool false) (Some 1)
           Demo.start Demo.clean_flux Demo.clean_weights);
    [reflexivity|reflexivity|vm_compute; reflexivity].
Defined.

(** C1 fails on the code for an image with a blank pixel.  The claim
    leaves the result non-finite exactly where the weight is zero, and the
    docstring of [reproject_celestial] (lines 49-52) gives the footprint 0
    where the input has no valid value and 1 where it has valid values.
    A NaN input pixel comes back as NaN with the weight 1.0, the very
    footprint of a valid pixel: the loops add [array[j, i] * overlap /
    original] and [overlap / original] without looking at the value. *)
Lemma blank_pixel_not_finite_where_covered :
  let run array :=
    (reproject_celestial Demo.unit_overlap Demo.same_frame
       (reproject_slice_spec Demo.unit_overlap) Demo.quiet
       array Demo.plain Demo.plain (1%nat, 1%nat) (PyBool false) "legacy" Demo.start).2 in
  run Demo.blank = Ok ([[S754_nan]], [[B64.one]])
  ∧ run Demo.pixel = Ok ([[B64.of_Z 3]], [[B64.one]])
  ∧ B64.is_finite S754_nan = false
  ∧ B64.eqb B64.one B64.zero = false.
Proof. vm_compute. by repeat split. Qed.

(** The product is divided as a whole: in binary64 that is not the input
    value times the fraction. *)
Example flux_term_rounding :
  B64.div (B64.mul (B64.of_Z 49) B64.one) (B64.of_Z 49) = B64.one
  ∧ B64.mul (B64.of_Z 49) (B64.div B64.one (B64.of_Z 49))
    = S754_finite false 9007199254740991 (-53).
Proof. vm_compute. by split. Qed.

(** ** The index box *)

Section IndexBox.
Variable compute_overlap :
  list spec_float → list spec_float → list spec_float → list spec_float → spec_float.
Variable par : common_par spec_float.

(** C4, as the code has it.  The index box of an input pixel runs from
    [int(min + 0.5)] to [int(max + 0.5)] of its four projected corners, on
    each axis; [int] drops the fraction, which is the floor for values that
    are not negative and the floor or one more for the others.  The box is
    clipped to [0 .. nx_out - 1] by [0 .. ny_out - 1], and a pixel whose
    clipped box is empty changes no output pixel. *)
Theorem index_box_truncates j i acc a b c d :
  B64.to_int (B64.add (corner_min (xp_inout par) j i) B64.half) = Ok a →
  B64.to_int (B64.add (corner_max (xp_inout par) j i) B64.half) = Ok b →
  B64.to_int (B64.add (corner_min (yp_inout par) j i) B64.half) = Ok c →
  B64.to_int (B64.add (corner_max (yp_inout par) j i) B64.half) = Ok d →
  box_rule compute_overlap par j i acc a b c d.
Proof.
  intros Ha Hb Hc Hd. unfold box_rule. cbv zeta.
  assert (index_box py_int par j i = Ok (a, b, c, d)) as Hbox.
  { unfold index_box. cbn [py_int fadd fhalf binary64].
    rewrite Ha. simpl. rewrite Hb. simpl. rewrite Hc. simpl. rewrite Hd. done. }
  assert (∀ acc', resample_pixel compute_overlap py_int par acc' j i
          = Ok (foldl (λ acc p, accumulate compute_overlap par j i p.1 p.2 acc) acc'
                  (box_pixels (Z.max 0 a, Z.min (nx_out par - 1) b,
                               Z.max 0 c, Z.min (ny_out par - 1) d)))) as Hpix.
  { intros acc'. unfold resample_pixel. rewrite Hbox. reflexivity. }
  split; [done|]. split; [done|]. split; [apply Hpix|].
  split; [intros jj ii; apply box_pixels_elem|].
  split; [intros jj ii Hin%box_pixels_elem; lia|].
  split; [|split; [apply floor_of_nonnegative|apply floor_below_int]].
  intros Hempty. rewrite Hpix, box_pixels_empty by done. done.
Qed.

End IndexBox.

Lemma index_box_truncates_witness :
  B64.to_int (B64.add (corner_min (xp_inout Demo.left_of_image) 0 0) B64.half) = Ok 0
  ∧ B64.to_int (B64.add (corner_max (xp_inout Demo.left_of_image) 0 0) B64.half) = Ok 0
  ∧ B64.to_int (B64.add (corner_min (yp_inout Demo.left_of_image) 0 0) B64.half) = Ok 0
  ∧ B64.to_int (B64.add (corner_max (yp_inout Demo.left_of_image) 0 0) B64.half) = Ok 1
  ∧ box_rule Demo.unit_overlap Demo.left_of_image 0 0
      (zeros (1%nat, 1%nat), zeros (1%nat, 1%nat)) 0 0 0 1.
Proof.
  split; [vm_compute; reflexivity|]. split; [vm_compute; reflexivity|].
  split; [vm_compute; reflexivity|]. split; [vm_compute; reflexivity|].
  apply (index_box_truncates Demo.unit_overlap Demo.left_of_image 0 0
           (zeros (1%nat, 1%nat), zeros (1%nat, 1%nat)) 0 0 0 1);
    vm_compute; reflexivity.
Defined.

(** C4, as stated, fails: for this pixel [int] gives the box [0 .. 0] on x,
    where the floor gives [-1 .. -1]; clipped, the first holds output pixel
    (0, 0), which the loops then update, and the second is empty. *)
Lemma truncation_is_not_floor :
  index_box py_int Demo.left_of_image 0 0 = Ok (0, 0, 0, 1)
  ∧ index_box py_floor Demo.left_of_image 0 0 = Ok (-1, -1, 0, 1)
  ∧ box_pixels (clip_box Demo.left_of_image (0, 0, 0, 1)) = [(0, 0)]
  ∧ box_pixels (clip_box Demo.left_of_image (-1, -1, 0, 1)) = []
  ∧ legacy_loops Demo.unit_overlap 1 Demo.left_of_image = Ok ([[B64.of_Z 3]], [[B64.one]]).
Proof. vm_compute. by repeat split. Qed.

(** ** The parallel attempt *)

Section ManagerFacts.
Context `{Scalar F}.
Variable compute_overlap : list F → list F → list F → list F → F.
Variable convert_world_coordinates : wcs F → wcs F → F → F → F * F.
Variable _reproject_slice_cython : Z → Z → common_par F → result (grid F * grid F).
Variable world : env.

Lemma call_run fault ev s :
  call fault ev s
  = match fault with
    | Some e => (s, Raise e)
    | None => (State (trace s ++ [ev]) (pool s), Ok ())
    end.
Proof. by destruct fault. Qed.

Lemma logged_refl P s : logged P s s.
Proof. split; [done|]. exists []. by rewrite app_nil_r. Qed.

Lemma logged_trans P s s1 s2 : logged P s s1 → logged P s1 s2 → logged P s s2.
Proof.
  intros [Hp1 (evs1 & Ht1 & Hf1)] [Hp2 (evs2 & Ht2 & Hf2)]. split; [congruence|].
  exists (evs1 ++ evs2). rewrite Ht2, Ht1, app_assoc. split; [done|].
  by apply Forall_app.
Qed.

Lemma logged_call P fault ev s s1 r :
  P ev = true → call fault ev s = (s1, r) → logged P s s1.
Proof.
  intros HP. rewrite call_run. destruct fault; intros [= <- <-]; [apply logged_refl|].
  split; [done|]. exists [ev]. split; [done|]. by apply Forall_singleton.
Qed.

Lemma apply_each_logged ranges i s s1 r :
  apply_each world ranges i s = (s1, r) → logged is_pool_event s s1.
Proof.
  revert i s s1 r. induction ranges as [|[a b] ranges IH]; intros i s s1 r.
  - intros [= <- <-]. apply logged_refl.
  - simpl. unfold mbind at 1. unfold M_bind.
    destruct (call _ _ s) as [s' [[]|e]] eqn:Hcall.
    + apply (logged_call is_pool_event) in Hcall; [|done].
      unfold mbind, M_bind.
      destruct (apply_each world ranges (S i) s') as [s'' [rs|e]] eqn:Hrest.
      * intros [= <- <-]. eapply logged_trans; [done|]. by eapply IH.
      * intros [= <- <-]. eapply logged_trans; [done|]. by eapply IH.
    + apply (logged_call is_pool_event) in Hcall; [|done]. by intros [= <- <-].
Qed.

Lemma get_logged par k task s s1 r :
  get _reproject_slice_cython world par k task s = (s1, r) → logged is_pool_event s s1.
Proof.
  unfold get. unfold mbind, M_bind.
  destruct (call _ _ s) as [s' [[]|e]] eqn:Hcall;
    (apply (logged_call is_pool_event) in Hcall; [|done]).
  - unfold lift. by intros [= <- <-].
  - by intros [= <- <-].
Qed.

Lemma get_each_logged par proj results k s s1 r :
  get_each _reproject_slice_cython world par proj results k s = (s1, r) →
  logged is_pool_event s s1.
Proof.
  revert k s s1 r. induction results as [|task results IH]; intros k s s1 r.
  - intros [= <- <-]. apply logged_refl.
  - simpl. unfold mbind at 1. unfold M_bind.
    destruct (get _ _ _ k task s) as [s' [v|e]] eqn:Hget; apply get_logged in Hget.
    + unfold mbind, M_bind.
      destruct (get_each _ _ _ proj results (S k) s') as [s'' [rs|e]] eqn:Hrest;
        intros [= <- <-]; (eapply logged_trans; [done|]); by eapply IH.
    + by intros [= <- <-].
Qed.

Lemma create_pool_cases n s :
  create_pool world n s = (State (trace s ++ [EvPoolCreate n]) true, Ok ())
  ∨ ∃ e, create_pool world n s = (s, Raise e).
Proof.
  unfold create_pool, mbind, M_bind. case_decide.
  - right. eexists. reflexivity.
  - unfold call. destruct (pool_fault world) as [e|]; [right; by exists e|by left].
Qed.

(** The guarded block, started with [pool] at [None]: it logs pool events
    only, and [pool] is set exactly when the pool was created, which is
    then the first event. *)
Lemma parallel_body_logged nx_in par n s s1 r :
  pool s = false →
  parallel_body _reproject_slice_cython world nx_in par n s = (s1, r) →
  ∃ evs, trace s1 = trace s ++ evs
         ∧ Forall (λ ev, is_pool_event ev = true) evs
         ∧ (if pool s1 then head evs = Some (EvPoolCreate n)
            else evs = [] ∧ ∃ e, r = Raise e).
Proof.
  intros Hpool. unfold parallel_body. unfold mbind at 1. unfold M_bind.
  destruct (create_pool_cases n s) as [Hc|[e Hc]]; rewrite Hc.
  - set (s' := State (trace s ++ [EvPoolCreate n]) true).
    assert (∀ s2, logged is_pool_event s' s2 →
              ∃ evs, trace s2 = trace s ++ evs
                     ∧ Forall (λ ev, is_pool_event ev = true) evs
                     ∧ pool s2 = true ∧ head evs = Some (EvPoolCreate n)) as Hlog.
    { intros s2 [Hp (evs & Ht & Hf)]. exists (EvPoolCreate n :: evs).
      rewrite Ht. simpl. rewrite <- app_assoc. split; [done|].
      split; [by apply Forall_cons|]. done. }
    unfold mbind at 1. unfold M_bind.
    destruct (apply_each world _ 0 s') as [sa [results|e]] eqn:Happly;
      apply apply_each_logged in Happly.
    + unfold mbind at 1. unfold M_bind.
      destruct (get_each _ _ _ fst results 0 sa) as [sb [arrays|e]] eqn:Hget1;
        apply get_each_logged in Hget1.
      * unfold mbind at 1. unfold M_bind.
        destruct (get_each _ _ _ snd results (length results) sb) as [sc [ws|e]] eqn:Hget2;
          apply get_each_logged in Hget2;
          intros [= <- <-];
          destruct (Hlog sc) as (evs & Ht & Hf & Hp & Hh);
            [eauto using logged_trans| |eauto using logged_trans|];
          exists evs; rewrite Hp; done.
      * intros [= <- <-].
        destruct (Hlog sb) as (evs & Ht & Hf & Hp & Hh); [eauto using logged_trans|].
        exists evs. rewrite Hp. done.
    + intros [= <- <-]. destruct (Hlog sa) as (evs & Ht & Hf & Hp & Hh); [done|].
      exists evs. rewrite Hp. done.
  - intros [= <- <-]. exists []. rewrite app_nil_r, Hpool. eauto.
Qed.

(** *** Computations only add to the trace *)

Lemma extends_refl s : extends s s.
Proof. exists []. by rewrite app_nil_r. Qed.

Lemma extends_trans s s1 s2 : extends s s1 → extends s1 s2 → extends s s2.
Proof. intros [evs1 H1] [evs2 H2]. exists (evs1 ++ evs2). by rewrite H2, H1, app_assoc. Qed.

Lemma appends_ret {A} (a : A) : appends (mret a).
Proof. intros s s1 r [= <- _]. apply extends_refl. Qed.

Lemma appends_raise {A} e : appends (raise (A := A) e).
Proof. intros s s1 r [= <- _]. apply extends_refl. Qed.

Lemma appends_lift {A} (v : result A) : appends (lift v).
Proof. intros s s1 r [= <- _]. apply extends_refl. Qed.

Lemma appends_emit ev : appends (emit ev).
Proof. intros s s1 r [= <- _]. by exists [ev]. Qed.

Lemma appends_set_pool p : appends (set_pool p).
Proof. intros s s1 r [= <- _]. exists []. cbn [trace]. by rewrite app_nil_r. Qed.

Lemma appends_call fault ev : appends (call fault ev).
Proof. destruct fault; [apply appends_raise|apply appends_emit]. Qed.

Lemma appends_bind {A B} (m : M A) (f : A → M B) :
  appends m → (∀ a, appends (f a)) → appends (m ≫= f).
Proof.
  intros Hm Hf s s2 r. unfold mbind, M_bind.
  destruct (m s) as [s1 [a|e]] eqn:Hms.
  - intros Hfa. eapply extends_trans; [by eapply Hm|by eapply Hf].
  - intros [= <- _]. by eapply Hm.
Qed.

Lemma appends_try_except {A} (body : M A) handler :
  appends body → (∀ e, appends (handler e)) → appends (try_except body handler).
Proof.
  intros Hb Hh s s2 r. unfold try_except.
  destruct (body s) as [s1 [a|e]] eqn:Hbs.
  - intros [= <- _]. by eapply Hb.
  - intros Hhe. eapply extends_trans; [by eapply Hb|by eapply Hh].
Qed.

Lemma appends_try_finally {A} (body : M A) final :
  appends body → appends final → appends (try_finally body final).
Proof.
  intros Hb Hf s s2 r. unfold try_finally.
  destruct (body s) as [s1 r1] eqn:Hbs. destruct (final s1) as [s2' [[]|e]] eqn:Hfs;
    intros [= <- _]; (eapply extends_trans; [by eapply Hb|by eapply Hf]).
Qed.

Lemma appends_get_pool {A} (k : bool → M A) :
  (∀ p, appends (k p)) → appends (get_pool ≫= k).
Proof. intros Hk s s1 r. unfold mbind, M_bind, get_pool. apply Hk. Qed.

Lemma appends_apply_each ranges i : appends (apply_each world ranges i).
Proof.
  revert i. induction ranges as [|[a b] ranges IH]; intros i; [apply appends_ret|].
  simpl. apply appends_bind; [apply appends_call|]. intros _.
  apply appends_bind; [apply IH|]. intros results. apply appends_ret.
Qed.

Lemma appends_get par k task : appends (get _reproject_slice_cython world par k task).
Proof. apply appends_bind; [apply appends_call|]. intros _. apply appends_lift. Qed.

Lemma appends_get_each par proj results k :
  appends (get_each _reproject_slice_cython world par proj results k).
Proof.
  revert k. induction results as [|task results IH]; intros k; [apply appends_ret|].
  simpl. apply appends_bind; [apply appends_get|]. intros r.
  apply appends_bind; [apply IH|]. intros rs. apply appends_ret.
Qed.

Lemma appends_release_pool : appends (release_pool world).
Proof.
  apply appends_get_pool. intros [|]; [|apply appends_ret].
  apply appends_bind; [apply appends_call|]. intros _. apply appends_call.
Qed.

Lemma appends_on_interrupt e : appends (on_interrupt (F := F) world e).
Proof.
  apply appends_get_pool. intros p.
  apply appends_bind; [|intros _; apply appends_raise].
  destruct p; [|apply appends_ret].
  apply appends_bind; [apply appends_call|]. intros _.
  apply appends_bind; [apply appends_call|]. intros _. apply appends_set_pool.
Qed.

Lemma appends_serial_impl nx_in par : appends (serial_impl _reproject_slice_cython nx_in par).
Proof.
  apply appends_bind; [apply appends_emit|]. intros _.
  apply appends_bind; [apply appends_lift|]. intros [a w]. apply appends_ret.
Qed.

(** *** The guarded block and the two clauses after it *)

(** [parallel_impl] with a given count, by the outcome of its guarded
    block followed by the handler and the [finally] clause. *)
Lemma parallel_impl_unfold nx_in par n s :
  parallel_impl _reproject_slice_cython world nx_in par (Some n) s
  = let finish (v : state * result (grid F * grid F)) :=
      match release_pool world v.1 with
      | (s2, Ok _) => (s2, divided v.2)
      | (s2, Raise e) => (s2, Raise e)
      end in
    match parallel_body _reproject_slice_cython world nx_in par n (State (trace s) false) with
    | (s1, Raise e) =>
        if is_KeyboardInterrupt e then finish (on_interrupt world e s1)
        else finish (s1, Raise e)
    | v => finish v
    end.
Proof.
  unfold parallel_impl. unfold mbind at 1. unfold M_bind, mret, M_ret.
  unfold mbind at 1. unfold M_bind, set_pool.
  unfold mbind at 1. unfold M_bind, try_finally, try_except. cbv zeta.
  destruct (parallel_body _ _ _ _ n _) as [s1 [[a w]|e]]; cbn [fst snd].
  - by destruct (release_pool world s1) as [s2 [[]|e]].
  - destruct (is_KeyboardInterrupt e).
    + destruct (on_interrupt world e s1) as [s1' [[a w]|e']]; cbn [fst snd];
        by destruct (release_pool world _) as [s2 [[]|e2]].
    + unfold raise. cbn [fst snd]. by destruct (release_pool world s1) as [s2 [[]|e2]].
Qed.

(** The [finally] clause, by what [close] and [join] do. *)
Lemma release_pool_run s :
  release_pool world s
  = if pool s then
      match close_fault world, join_fault world with
      | Some e, _ => (s, Raise e)
      | None, Some e => (State (trace s ++ [EvPoolClose]) true, Raise e)
      | None, None => (State (trace s ++ [EvPoolClose; EvPoolJoin]) true, Ok ())
      end
    else (s, Ok ()).
Proof.
  unfold release_pool, mbind, M_bind, get_pool. destruct s as [tr [|]]; [|done]. simpl.
  rewrite call_run. destruct (close_fault world); [done|]. cbn [trace pool].
  rewrite call_run. destruct (join_fault world); [done|]. cbn [trace pool].
  by rewrite <- app_assoc.
Qed.

(** The [except KeyboardInterrupt] clause when [terminate] and [join]
    complete. *)
Lemma on_interrupt_run e s :
  terminate_fault world = None →
  abort_join_fault world = None →
  on_interrupt (F := F) world e s
  = (State (trace s ++ (if pool s then [EvPoolTerminate; EvPoolJoin] else [])) false,
     Raise e).
Proof.
  intros Ht Hj. unfold on_interrupt, mbind, M_bind, get_pool.
  destruct s as [tr [|]]; simpl.
  - rewrite call_run, Ht. cbn [trace pool]. rewrite call_run, Hj. cbn [trace pool].
    unfold set_pool, raise. cbn [trace]. by rewrite <- app_assoc.
  - unfold raise. by rewrite app_nil_r.
Qed.

(** [parallel_impl] when the calls that release the pool complete: on
    success and on a failure the pool is closed and joined, on an
    interrupt it is terminated and joined and the variable reset. *)
Lemma parallel_impl_run nx_in par n s :
  cleanup_completes world →
  parallel_impl _reproject_slice_cython world nx_in par (Some n) s
  = match parallel_body _reproject_slice_cython world nx_in par n (State (trace s) false) with
    | (s1, Ok (a, w)) =>
        (State (trace s1 ++ (if pool s1 then [EvPoolClose; EvPoolJoin] else [])) (pool s1),
         Ok (grid_div a w, w))
    | (s1, Raise e) =>
        if is_KeyboardInterrupt e
        then (State (trace s1 ++ (if pool s1 then [EvPoolTerminate; EvPoolJoin] else []))
                false, Raise e)
        else (State (trace s1 ++ (if pool s1 then [EvPoolClose; EvPoolJoin] else []))
                (pool s1), Raise e)
    end.
Proof.
  intros (Ht & Ha & Hc & Hj). rewrite parallel_impl_unfold. cbv zeta.
  destruct (parallel_body _ _ _ _ n _) as [s1 [[a w]|e]]; cbn [fst snd].
  - rewrite release_pool_run, Hc, Hj. destruct s1 as [tr [|]]; simpl; [done|].
    by rewrite app_nil_r.
  - destruct (is_KeyboardInterrupt e).
    + rewrite on_interrupt_run by done. cbn [fst snd]. by rewrite release_pool_run.
    + cbn [fst snd]. rewrite release_pool_run, Hc, Hj. destruct s1 as [tr [|]]; simpl; [done|].
      by rewrite app_nil_r.
Qed.

(** Whatever happens, [parallel_impl] leaves the trace of its guarded
    block, continued. *)
Lemma parallel_impl_extends nx_in par n s s2 r :
  parallel_impl _reproject_slice_cython world nx_in par (Some n) s = (s2, r) →
  ∃ s1 r1,
    parallel_body _reproject_slice_cython world nx_in par n (State (trace s) false) = (s1, r1)
    ∧ extends s1 s2.
Proof.
  rewrite parallel_impl_unfold. cbv zeta.
  assert (∀ v, extends (v.1) (match release_pool world v.1 with
                              | (s2, Ok _) => (s2, divided v.2)
                              | (s2, Raise e) => (s2, Raise e)
                              end).1) as Hfinish.
  { intros [s1 r1]. cbn [fst snd].
    destruct (release_pool world s1) as [s3 [[]|e]] eqn:Hrel;
      apply appends_release_pool in Hrel; done. }
  destruct (parallel_body _ _ _ _ n _) as [s1 r1]. intros Hrun. exists s1, r1.
  split; [done|]. destruct r1 as [v|e].
  - specialize (Hfinish (s1, Ok v)). by rewrite Hrun in Hfinish.
  - destruct (is_KeyboardInterrupt e).
    + destruct (on_interrupt world e s1) as [s1' r'] eqn:Hint.
      apply appends_on_interrupt in Hint.
      specialize (Hfinish (s1', r')). rewrite Hrun in Hfinish.
      by eapply extends_trans.
    + specialize (Hfinish (s1, Raise e)). by rewrite Hrun in Hfinish.
Qed.

(** The submissions when no [apply_async] fails. *)
Lemma apply_each_run ranges i s :
  (∀ i, apply_fault world i = None) →
  apply_each world ranges i s
  = (State (trace s ++ ((λ r, EvApplyAsync r.1 r.2) <$> ranges)) (pool s), Ok ranges).
Proof.
  intros Happly. revert i s. induction ranges as [|[a b] ranges IH]; intros i s.
  - simpl. rewrite app_nil_r. by destruct s.
  - simpl. unfold mbind at 1. unfold M_bind. rewrite call_run, Happly.
    unfold mbind, M_bind. rewrite IH. cbn [trace pool]. by rewrite <- app_assoc.
Qed.

(** A guarded block in which the pool is created and every task
    submitted starts with that creation and those submissions. *)
Lemma parallel_body_starts nx_in par n s s1 r :
  1 ≤ n →
  pool_fault world = None →
  (∀ i, apply_fault world i = None) →
  parallel_body _reproject_slice_cython world nx_in par n s = (s1, r) →
  ∃ rest, trace s1 = trace s ++ EvPoolCreate n :: submissions nx_in n ++ rest.
Proof.
  intros Hn Hpool Happly. unfold parallel_body. unfold mbind at 1. unfold M_bind.
  rewrite create_pool_run by done.
  unfold mbind at 1. unfold M_bind. rewrite apply_each_run by done. cbn [trace pool].
  intros Hrest.
  assert (appends (arrays ← get_each _reproject_slice_cython world par fst
                              (partitions nx_in n) 0;
                   weights ← get_each _reproject_slice_cython world par snd
                               (partitions nx_in n) (length (partitions nx_in n));
                   mret (py_sum arrays, py_sum weights))) as Happ.
  { apply appends_bind; [apply appends_get_each|]. intros arrays.
    apply appends_bind; [apply appends_get_each|]. intros weights. apply appends_ret. }
  apply Happ in Hrest as [rest Hrest]. exists rest. rewrite Hrest. cbn [trace].
  unfold submissions. by rewrite <- !app_assoc.
Qed.

Lemma parallel_impl_resolved nx_in par nproc n s :
  resolved_count world nproc = Ok n →
  parallel_impl _reproject_slice_cython world nx_in par nproc s
  = parallel_impl _reproject_slice_cython world nx_in par (Some n) s.
Proof.
  destruct nproc as [m|]; simpl.
  - by intros [= ->].
  - apply parallel_impl_auto.
Qed.

(** The handler of line 230: after a failure that is an [Exception] the
    call is the serial implementation, run after the two warnings. *)
Lemma fallback_after_failure nx_in par nproc s s1 e :
  parallel_impl _reproject_slice_cython world nx_in par nproc s = (s1, Raise e) →
  is_Exception e = true →
  parallel_or_fallback _reproject_slice_cython world nx_in par nproc s
  = serial_impl _reproject_slice_cython nx_in par
      (State (trace s1 ++ [EvWarnParallelFailed e; EvWarnRunningSerial]) (pool s1)).
Proof.
  intros Himpl Hexc.
  assert (is_KeyboardInterrupt e = false) as Hki.
  { unfold is_Exception in Hexc. unfold is_KeyboardInterrupt. by destruct (exn_cls e). }
  unfold parallel_or_fallback, try_except. rewrite Himpl, Hki, Hexc.
  unfold mbind at 1. unfold M_bind, emit. unfold mbind at 1. unfold M_bind. simpl.
  by rewrite <- app_assoc.
Qed.

(** The call continues the trace of its parallel attempt. *)
Lemma parallel_or_fallback_extends nx_in par nproc s :
  extends (parallel_impl _reproject_slice_cython world nx_in par nproc s).1
    (parallel_or_fallback _reproject_slice_cython world nx_in par nproc s).1.
Proof.
  unfold parallel_or_fallback, try_except.
  destruct (parallel_impl _ _ _ _ nproc s) as [s1 [v|e]]; [apply extends_refl|].
  destruct (is_KeyboardInterrupt e); [apply extends_refl|].
  destruct (is_Exception e); [|apply extends_refl]. cbn [fst].
  destruct ((emit (EvWarnParallelFailed e);; emit EvWarnRunningSerial;;
             serial_impl _reproject_slice_cython nx_in par) s1) as [s2 r] eqn:Hrun.
  revert Hrun. apply appends_bind; [apply appends_emit|]. intros _.
  apply appends_bind; [apply appends_emit|]. intros _. apply appends_serial_impl.
Qed.

(** A call with [_method = "c"] for which a pool is wanted. *)
Lemma reproject_parallel array wcs_in wcs_out shape_out parallel nproc s :
  check_parallel_flag parallel = Ok nproc →
  naxis wcs_in = 2 →
  wants_pool nproc = true →
  reproject_celestial compute_overlap convert_world_coordinates _reproject_slice_cython
    world array wcs_in wcs_out shape_out parallel "c" s
  = parallel_or_fallback _reproject_slice_cython world (Z.of_nat (shape_of array).2)
      (make_common_func_par convert_world_coordinates array wcs_in wcs_out shape_out)
      nproc (after_mapping s).
Proof.
  intros Hflag Hax Hpool. rewrite (reproject_dispatch _ _ _ _ _ _ _ _ _ _ _ nproc) by done.
  cbv zeta. cbn [String.eqb Ascii.eqb Bool.eqb]. rewrite Hpool.
  assert (bool_decide (nproc = Some 1) = false) as ->; [|done].
  apply bool_decide_eq_false. intros ->. by vm_compute in Hpool.
Qed.

(** A call that goes to the pool, with the pool created and every task
    submitted, starts with a pool of the resolved size. *)
Lemma pooled_call_starts array wcs_in wcs_out shape_out parallel nproc n s :
  check_parallel_flag parallel = Ok nproc →
  naxis wcs_in = 2 →
  wants_pool nproc = true →
  resolved_count world nproc = Ok n →
  1 ≤ n →
  pool_fault world = None →
  (∀ i, apply_fault world i = None) →
  starts_pool
    (reproject_celestial compute_overlap convert_world_coordinates
       _reproject_slice_cython world array wcs_in wcs_out shape_out parallel "c" s)
    (after_mapping s) (Z.of_nat (shape_of array).2) n.
Proof.
  intros Hflag Hax Hwants Hres Hn Hpool Happly. unfold starts_pool.
  rewrite (reproject_parallel _ _ _ _ _ nproc) by done.
  set (nx_in := Z.of_nat (shape_of array).2).
  set (par := make_common_func_par convert_world_coordinates array wcs_in wcs_out shape_out).
  destruct (parallel_or_fallback_extends nx_in par nproc (after_mapping s)) as [evs2 H2].
  rewrite H2. rewrite (parallel_impl_resolved _ _ _ n) by done.
  destruct (parallel_impl _ _ _ _ (Some n) (after_mapping s)) as [s2 r] eqn:Himpl.
  apply parallel_impl_extends in Himpl as (s1 & r1 & Hbody & [evs1 H1]).
  apply parallel_body_starts in Hbody as [rest Hbody]; [|done..].
  cbn [fst trace] in *. rewrite H1, Hbody. exists (rest ++ evs1 ++ evs2).
  rewrite <- !app_assoc. f_equal. simpl. by rewrite <- !app_assoc.
Qed.

(** When a [KeyboardInterrupt] reaches the guarded block of
    [parallel_impl] (while the pool is created, a task submitted or a
    result awaited) and [terminate] and [join] complete, the pool, if
    there is one, is terminated and then joined before the interrupt is
    raised again; the caller gets the interrupt, no result; no warning is
    logged and the serial implementation does not run. *)
Theorem interrupt_terminates_pool array wcs_in wcs_out shape_out parallel nproc n s s1 e :
  check_parallel_flag parallel = Ok nproc →
  naxis wcs_in = 2 →
  wants_pool nproc = true →
  resolved_count world nproc = Ok n →
  terminate_fault world = None →
  abort_join_fault world = None →
  parallel_body _reproject_slice_cython world (Z.of_nat (shape_of array).2)
    (make_common_func_par convert_world_coordinates array wcs_in wcs_out shape_out)
    n (State (trace (after_mapping s)) false) = (s1, Raise e) →
  is_KeyboardInterrupt e = true →
  cancelled_run
    (parallel_impl _reproject_slice_cython world (Z.of_nat (shape_of array).2)
       (make_common_func_par convert_world_coordinates array wcs_in wcs_out shape_out)
       nproc (after_mapping s))
    (reproject_celestial compute_overlap convert_world_coordinates
       _reproject_slice_cython world array wcs_in wcs_out shape_out parallel "c" s)
    (after_mapping s) n s1 e.
Proof.
  intros Hflag Hax Hpool Hn Hterm Hjoin Hbody Hki. unfold cancelled_run.
  rewrite (reproject_parallel _ _ _ _ _ nproc) by done.
  split; [|split].
  - unfold parallel_or_fallback, try_except.
    rewrite (parallel_impl_resolved _ _ _ n) by done.
    rewrite parallel_impl_unfold, Hbody, Hki. cbv zeta.
    rewrite on_interrupt_run by done. cbn [fst snd].
    rewrite release_pool_run. cbn [pool divided rbind]. by rewrite Hki.
  - apply parallel_body_logged in Hbody as (evs & Ht & Hf & Hp); [|done].
    exists evs. split; [done|]. split; [done|].
    destruct (pool s1); [done|]. by destruct Hp.
  - intros s2 e2 Himpl Hki2. unfold parallel_or_fallback, try_except.
    by rewrite Himpl, Hki2.
Qed.


(** Without an interrupt and without a failure the parallel attempt is
    the call. *)
Lemma reproject_parallel_ok array wcs_in wcs_out shape_out parallel nproc s s1 v :
  check_parallel_flag parallel = Ok nproc →
  naxis wcs_in = 2 →
  wants_pool nproc = true →
  parallel_impl _reproject_slice_cython world (Z.of_nat (shape_of array).2)
    (make_common_func_par convert_world_coordinates array wcs_in wcs_out shape_out)
    nproc (after_mapping s) = (s1, Ok v) →
  reproject_celestial compute_overlap convert_world_coordinates _reproject_slice_cython
    world array wcs_in wcs_out shape_out parallel "c" s = (s1, Ok v).
Proof.
  intros Hflag Hax Hpool Himpl. rewrite (reproject_parallel _ _ _ _ _ nproc) by done.
  unfold parallel_or_fallback, try_except. by rewrite Himpl.
Qed.

(** With no count given and a [cpu_count()] that raises, [parallel_impl]
    ends there: no pool is created. *)
Lemma parallel_impl_no_count nx_in par e s :
  cpu_count world = Raise e →
  parallel_impl _reproject_slice_cython world nx_in par None s = (s, Raise e).
Proof.
  intros Hcount. unfold parallel_impl. unfold mbind at 1. unfold M_bind, lift.
  by rewrite Hcount.
Qed.

(** C7.  A flag that is neither a [bool] nor an [int] raises a
    [TypeError]; an [int] that is zero or negative raises a [ValueError];
    both end the call before anything is done.  [True] leaves the count
    open until [parallel_impl] asks [cpu_count()]; [False] gives one
    process, for which the serial implementation runs; a positive [int]
    [n] gives exactly [n], the size the pool is created with.  A call with
    [True] creates, once the mapping is done, a pool of as many processes
    as [cpu_count()] returns and submits one task per column range, and
    runs the serial implementation after two warnings when [cpu_count()]
    fails; a call with an [int] [n > 1] creates a pool of [n] processes
    and submits [n] tasks, whatever [cpu_count()] would return. *)
Theorem parallel_flag_resolution array wcs_in wcs_out shape_out _method s :
  let run parallel :=
    reproject_celestial compute_overlap convert_world_coordinates
      _reproject_slice_cython world array wcs_in wcs_out shape_out parallel _method s in
  let pooled parallel :=
    reproject_celestial compute_overlap convert_world_coordinates
      _reproject_slice_cython world array wcs_in wcs_out shape_out parallel "c" s in
  let nx_in := Z.of_nat (shape_of array).2 in
  let par := make_common_func_par convert_world_coordinates array wcs_in wcs_out
               shape_out in
  (∀ v, (∀ b, v ≠ PyBool b) → (∀ n, v ≠ PyInt n) →
     ∃ msg, check_parallel_flag v = Raise (Exn TypeError msg)
            ∧ run v = (s, Raise (Exn TypeError msg)))
  ∧ (∀ n, n ≤ 0 →
     ∃ msg, check_parallel_flag (PyInt n) = Raise (Exn ValueError msg)
            ∧ run (PyInt n) = (s, Raise (Exn ValueError msg)))
  ∧ check_parallel_flag (PyBool true) = Ok None
  ∧ (∀ n nx_in par s',
     cpu_count world = Ok n →
     parallel_impl _reproject_slice_cython world nx_in par None s'
     = parallel_impl _reproject_slice_cython world nx_in par (Some n) s')
  ∧ check_parallel_flag (PyBool false) = Ok (Some 1)
  ∧ (naxis wcs_in = 2 →
     reproject_celestial compute_overlap convert_world_coordinates
       _reproject_slice_cython world array wcs_in wcs_out shape_out (PyBool false) "c" s
     = serial_impl _reproject_slice_cython (Z.of_nat (shape_of array).2)
         (make_common_func_par convert_world_coordinates array wcs_in wcs_out shape_out)
         (after_mapping s))
  ∧ (∀ n, 0 < n → check_parallel_flag (PyInt n) = Ok (Some n))
  ∧ (∀ n s', 1 ≤ n → pool_fault world = None →
     create_pool world n s' = (State (trace s' ++ [EvPoolCreate n]) true, Ok ()))
  ∧ (∀ n, naxis wcs_in = 2 → cpu_count world = Ok n → 1 ≤ n →
     pool_fault world = None → (∀ i, apply_fault world i = None) →
     starts_pool (pooled (PyBool true)) (after_mapping s) nx_in n)
  ∧ (∀ e, naxis wcs_in = 2 → cpu_count world = Raise e → is_Exception e = true →
     pooled (PyBool true)
     = serial_impl _reproject_slice_cython nx_in par
         (State (trace (after_mapping s) ++ [EvWarnParallelFailed e; EvWarnRunningSerial])
            (pool s)))
  ∧ (∀ n, naxis wcs_in = 2 → 1 < n →
     pool_fault world = None → (∀ i, apply_fault world i = None) →
     starts_pool (pooled (PyInt n)) (after_mapping s) nx_in n).
Proof.
  intros run pooled nx_in par.
  split; [|split; [|split; [|split; [|split; [|split; [|split; [|split;
    [|split; [|split]]]]]]]]].
  - intros v Hb Hn. eexists. split; [by apply flag_type_error|].
    apply reproject_bad_flag. by apply flag_type_error.
  - intros n Hn. eexists. split; [by apply flag_value_error|].
    apply reproject_bad_flag. by apply flag_value_error.
  - done.
  - intros n nx_in' par' s'. apply parallel_impl_auto.
  - done.
  - intros Hax. by rewrite (reproject_dispatch _ _ _ _ _ _ _ _ _ _ _ (Some 1)).
  - apply flag_positive.
  - intros n s'. apply create_pool_run.
  - intros n Hax Hcount Hn Hpool Happly.
    by apply (pooled_call_starts _ _ _ _ _ None).
  - intros e Hax Hcount Hexc. unfold pooled.
    rewrite (reproject_parallel _ _ _ _ _ None) by done.
    by rewrite (fallback_after_failure _ _ _ _ (after_mapping s) e)
      by (done || by apply parallel_impl_no_count).
  - intros n Hax Hn Hpool Happly.
    apply (pooled_call_starts _ _ _ _ _ (Some n)); try done; [|simpl|lia].
    + by apply flag_positive; lia.
    + apply bool_decide_eq_true. lia.
Qed.

End ManagerFacts.

(** With [True] on a machine of four CPUs the pool has four processes;
    with the integer 3 it has three. *)
Example true_flag_uses_cpu_count :
  trace (reproject_celestial Demo.unit_overlap Demo.same_frame Demo.kernel Demo.quiet
           Demo.image Demo.plain Demo.plain (2%nat, 2%nat) (PyBool true) "c" Demo.start).1
  = EvAstypeFloat :: mapping_events
    ++ EvPoolCreate 4 :: submissions 2 4
    ++ (EvGet <$> seq 0 8) ++ [EvPoolClose; EvPoolJoin].
Proof. vm_compute. reflexivity. Qed.

Example int_flag_pins_the_count :
  trace (reproject_celestial Demo.unit_overlap Demo.same_frame Demo.kernel Demo.quiet
           Demo.image Demo.plain Demo.plain (2%nat, 2%nat) (PyInt 3) "c" Demo.start).1
  = EvAstypeFloat :: mapping_events
    ++ EvPoolCreate 3 :: submissions 2 3
    ++ (EvGet <$> seq 0 6) ++ [EvPoolClose; EvPoolJoin].
Proof. vm_compute. reflexivity. Qed.

(** An interrupt while the second result is awaited. *)
Lemma interrupt_terminates_pool_witness :
  check_parallel_flag (PyInt 3) = Ok (Some 3)
  ∧ naxis Demo.plain = 2
  ∧ wants_pool (Some 3) = true
  ∧ resolved_count (Demo.second_get_raises Demo.ctrl_c) (Some 3) = Ok 3
  ∧ terminate_fault (Demo.second_get_raises Demo.ctrl_c) = None
  ∧ abort_join_fault (Demo.second_get_raises Demo.ctrl_c) = None
  ∧ parallel_body Demo.kernel (Demo.second_get_raises Demo.ctrl_c)
      (Z.of_nat (shape_of Demo.image).2)
      (make_common_func_par Demo.same_frame Demo.image Demo.plain Demo.plain (2%nat, 2%nat))
      3 (State (trace (after_mapping Demo.start)) false)
    = (Demo.waiting, Raise Demo.ctrl_c)
  ∧ is_KeyboardInterrupt Demo.ctrl_c = true
  ∧ cancelled_run
      (parallel_impl Demo.kernel (Demo.second_get_raises Demo.ctrl_c)
         (Z.of_nat (shape_of Demo.image).2)
         (make_common_func_par Demo.same_frame Demo.image Demo.plain Demo.plain
            (2%nat, 2%nat))
         (Some 3) (after_mapping Demo.start))
      (reproject_celestial Demo.unit_overlap Demo.same_frame Demo.kernel
         (Demo.second_get_raises Demo.ctrl_c)
         Demo.image Demo.plain Demo.plain (2%nat, 2%nat) (PyInt 3) "c" Demo.start)
      (after_mapping Demo.start) 3 Demo.waiting Demo.ctrl_c.
Proof.
  split; [reflexivity|]. split; [reflexivity|]. split; [reflexivity|].
  split; [reflexivity|]. split; [reflexivity|]. split; [reflexivity|].
  split; [vm_compute; reflexivity|]. split; [reflexivity|].
  apply (interrupt_terminates_pool Demo.unit_overlap Demo.same_frame Demo.kernel
           (Demo.second_get_raises Demo.ctrl_c)
           Demo.image Demo.plain Demo.plain (2%nat, 2%nat) (PyInt 3) (Some 3) 3
           Demo.start Demo.waiting Demo.ctrl_c);
    first [reflexivity | vm_compute; reflexivity].
Defined.

Example interrupted_run :
  reproject_celestial Demo.unit_overlap Demo.same_frame Demo.kernel
    (Demo.second_get_raises Demo.ctrl_c)
    Demo.image Demo.plain Demo.plain (2%nat, 2%nat) (PyInt 3) "c" Demo.start
  = (State (trace Demo.waiting ++ [EvPoolTerminate; EvPoolJoin]) false,
     Raise Demo.ctrl_c).
Proof. vm_compute. reflexivity. Qed.

(** C6 fails on the code when the interrupt arrives in the [finally]
    clause.  The worker of the second range is lost, the second [get]
    raises an [OSError], and ctrl+c is pressed while [pool.join()] on line
    219 waits for the other workers.  The caller gets the interrupt and
    the serial implementation does not run, but the pool was closed only:
    it is neither terminated nor joined, where the handler of lines
    204-213 terminates and joins it. *)
Lemma interrupt_during_cleanup_leaves_pool :
  let run :=
    reproject_celestial Demo.unit_overlap Demo.same_frame Demo.kernel
      Demo.interrupted_cleanup
      Demo.image Demo.plain Demo.plain (2%nat, 2%nat) (PyInt 3) "c" Demo.start in
  is_KeyboardInterrupt Demo.ctrl_c = true
  ∧ run = (State (trace Demo.waiting ++ [EvPoolClose]) true, Raise Demo.ctrl_c)
  ∧ EvPoolCreate 3 ∈ trace run.1
  ∧ Forall (λ ev, ev ≠ EvPoolTerminate ∧ ev ≠ EvPoolJoin) (trace run.1).
Proof.
  vm_compute. split; [done|]. split; [done|]. split.
  - do 7 (apply elem_of_cons; right). apply elem_of_cons. by left.
  - repeat (apply Forall_cons_2; [split; discriminate|]). apply Forall_nil_2.
Qed.


(** The whole call on that request: the pool is closed and joined, the
    two warnings are logged, and the serial run over both columns gives
    the result. *)
Example worker_lost_run :
  let run :=
    reproject_celestial Demo.unit_overlap Demo.same_frame Demo.kernel
      (Demo.second_get_raises Demo.worker_lost)
      Demo.image Demo.plain Demo.plain (2%nat, 2%nat) (PyInt 3) "c" Demo.start in
  trace run.1
  = trace Demo.released
    ++ [EvWarnParallelFailed Demo.worker_lost; EvWarnRunningSerial; EvSlice 0 2]
  ∧ run.2
    = (reproject_celestial Demo.unit_overlap Demo.same_frame Demo.kernel Demo.quiet
         Demo.image Demo.plain Demo.plain (2%nat, 2%nat) (PyBool false) "c" Demo.start).2.
Proof. vm_compute. by split. Qed.

(** An exit request raised in the calling process while a result is
    awaited is not a failure of the parallel run, and not an
    [Exception]: it reaches the caller once the pool is closed and
    joined. *)
Example system_exit_is_not_caught :
  let run :=
    reproject_celestial Demo.unit_overlap Demo.same_frame Demo.kernel
      (Demo.second_get_raises Demo.sys_exit)
      Demo.image Demo.plain Demo.plain (2%nat, 2%nat) (PyInt 3) "c" Demo.start in
  is_KeyboardInterrupt Demo.sys_exit = false
  ∧ run.2 = Raise Demo.sys_exit
  ∧ trace run.1 = trace Demo.waiting ++ [EvPoolClose; EvPoolJoin].
Proof. vm_compute. by repeat split. Qed.

(** ** Exact sums *)

Section ExactSums.
Context `{ExactSum F}.

Lemma fadd_0_r (x : F) : fadd x f0 = x.
Proof. by rewrite fadd_comm, fadd_0_l. Qed.

Lemma grid_add_shape (a b : grid F) rows cols :
  has_shape a rows cols → has_shape b rows cols → has_shape (grid_add a b) rows cols.
Proof. apply zip_rows_shape. Qed.

Lemma grid_add_cell (a b : grid F) j i x y :
  cell a j i = Some x → cell b j i = Some y → cell (grid_add a b) j i = Some (fadd x y).
Proof. apply zip_rows_cell. Qed.

Lemma grid_add_assoc (a b c : grid F) :
  grid_add a (grid_add b c) = grid_add (grid_add a b) c.
Proof.
  unfold grid_add. revert b c. induction a as [|ra a IH]; intros [|rb b] [|rc c]; try done.
  simpl. f_equal; [|apply IH].
  revert rb rc. induction ra as [|x ra IHr]; intros [|y rb] [|z rc]; try done.
  simpl. f_equal; [apply fadd_assoc|apply IHr].
Qed.

Lemma zero_plus_grid (g : grid F) : fmap (M := list) (fadd f0) <$> g = g.
Proof.
  assert (∀ row : list F, fadd f0 <$> row = row) as Hrow.
  { intros row. induction row as [|x row IHr]; [done|]. csimpl. by rewrite fadd_0_l, IHr. }
  induction g as [|row g IH]; [done|]. csimpl. by rewrite Hrow, IH.
Qed.

(** Adding a term to an array is adding the array that holds only that
    term. *)
Lemma add_at_as_sum (g : grid F) rows cols jj ii v :
  has_shape g rows cols →
  add_at g jj ii v = grid_add g (add_at (zeros (rows, cols)) jj ii v).
Proof.
  intros Hg.
  assert (has_shape (add_at (zeros (rows, cols)) jj ii v) rows cols) as Hz
    by apply add_at_shape, zeros_shape.
  apply (grid_eq _ _ rows cols); [by apply add_at_shape|by apply grid_add_shape|].
  intros j i Hj Hi.
  destruct (has_shape_cell g rows cols j i Hg Hj Hi) as [x Hx].
  rewrite (grid_add_cell _ _ _ _ x (if decide (jj = Z.of_nat j ∧ ii = Z.of_nat i)
                                    then fadd f0 v else f0)); [|done|].
  - rewrite cell_add_at, Hx. case_decide; simpl; [by rewrite fadd_0_l|by rewrite fadd_0_r].
  - rewrite cell_add_at, cell_zeros by done. by case_decide.
Qed.

Lemma pair_add_assoc (p q r : grid F * grid F) :
  pair_add p (pair_add q r) = pair_add (pair_add p q) r.
Proof. unfold pair_add. simpl. by rewrite !grid_add_assoc. Qed.

Section OneRequest.
Variable compute_overlap : list F → list F → list F → list F → F.
Variable par : common_par F.

Lemma zeros_out_shape : has_out_shape par (zeros (shape_out par), zeros (shape_out par)).
Proof. unfold has_out_shape. destruct (shape_out par). split; apply zeros_shape. Qed.

Lemma foldl_out_shape us acc :
  has_out_shape par acc → has_out_shape par (foldl (apply_update compute_overlap par) acc us).
Proof. intros [H1 H2]. by apply foldl_updates_shape. Qed.

Lemma apply_update_as_sum acc u :
  has_out_shape par acc →
  apply_update compute_overlap par acc u
  = pair_add acc (apply_update compute_overlap par
                    (zeros (shape_out par), zeros (shape_out par)) u).
Proof.
  intros [H1 H2]. rewrite !apply_update_unfold. unfold pair_add. cbn [fst snd].
  destruct (shape_out par) as [rows cols]. cbn [fst snd] in H1, H2.
  f_equal; by apply add_at_as_sum.
Qed.

(** Updates applied to an accumulator are the accumulator plus the
    updates applied to zero arrays. *)
Lemma foldl_updates_as_sum us acc :
  has_out_shape par acc →
  foldl (apply_update compute_overlap par) acc us
  = pair_add acc (foldl (apply_update compute_overlap par)
                    (zeros (shape_out par), zeros (shape_out par)) us).
Proof.
  revert acc. induction us as [|u us IH]; intros acc Hacc.
  - simpl. destruct acc as [a w], Hacc as [H1 H2]. unfold pair_add. cbn [fst snd] in *.
    destruct (shape_out par) as [rows cols]. cbn [fst snd] in H1, H2.
    f_equal.
    + apply (grid_eq _ _ rows cols); [done|by apply grid_add_shape, zeros_shape|].
      intros j i Hj Hi. destruct (has_shape_cell a rows cols j i H1 Hj Hi) as [x Hx].
      rewrite (grid_add_cell _ _ _ _ x f0), Hx, ?fadd_0_r; [done..|by apply cell_zeros].
    + apply (grid_eq _ _ rows cols); [done|by apply grid_add_shape, zeros_shape|].
      intros j i Hj Hi. destruct (has_shape_cell w rows cols j i H2 Hj Hi) as [x Hx].
      rewrite (grid_add_cell _ _ _ _ x f0), Hx, ?fadd_0_r; [done..|by apply cell_zeros].
  - simpl. rewrite IH by (apply (foldl_out_shape [u]), Hacc).
    rewrite (IH (apply_update _ _ (zeros _, zeros _) u))
      by (apply (foldl_out_shape [u]), zeros_out_shape).
    rewrite pair_add_assoc. f_equal. by apply apply_update_as_sum.
Qed.

Lemma foldl_updates_app us1 us2 :
  foldl (apply_update compute_overlap par)
    (zeros (shape_out par), zeros (shape_out par)) (us1 ++ us2)
  = pair_add
      (foldl (apply_update compute_overlap par)
         (zeros (shape_out par), zeros (shape_out par)) us1)
      (foldl (apply_update compute_overlap par)
         (zeros (shape_out par), zeros (shape_out par)) us2).
Proof.
  rewrite foldl_app. apply foldl_updates_as_sum, foldl_out_shape, zeros_out_shape.
Qed.

End OneRequest.

End ExactSums.

(** ** Column ranges side by side *)

Section Slices.
Context `{ExactSum F}.
Variable compute_overlap : list F → list F → list F → list F → F.
Variable par : common_par F.

Lemma columns_updates_app to_index c1 c2 :
  columns_updates to_index par (c1 ++ c2)
  = us1 ← columns_updates to_index par c1;
    us2 ← columns_updates to_index par c2;
    Ok (us1 ++ us2).
Proof.
  induction c1 as [|i c1 IH].
  - simpl. by destruct (columns_updates to_index par c2).
  - simpl. destruct (rows_updates to_index par _ i) as [us|e]; [|done]. simpl.
    rewrite IH. destruct (columns_updates to_index par c1) as [us1|e]; [|done]. simpl.
    destruct (columns_updates to_index par c2) as [us2|e]; [|done]. simpl.
    by rewrite app_assoc.
Qed.

Lemma py_range_split a b c : a ≤ b → b ≤ c → py_range a c = py_range a b ++ py_range b c.
Proof.
  intros Hab Hbc. unfold py_range.
  replace (c - a) with ((b - a) + (c - b)) by lia.
  rewrite seqZ_app by lia. do 2 f_equal. lia.
Qed.

Lemma slice_spec_updates startx endx :
  reproject_slice_spec compute_overlap startx endx par
  = us ← slice_updates py_floor par startx endx;
    Ok (foldl (apply_update compute_overlap par)
          (zeros (shape_out par), zeros (shape_out par)) us).
Proof. apply resample_columns_updates. Qed.

Lemma slice_spec_shape startx endx r :
  reproject_slice_spec compute_overlap startx endx par = Ok r → has_out_shape par r.
Proof.
  rewrite slice_spec_updates. intros (us & _ & [= <-])%rbind_Ok.
  apply foldl_out_shape, zeros_out_shape.
Qed.

(** The slice over two adjoining ranges is the sum of the two slices. *)
Lemma slice_spec_split a b c :
  a ≤ b → b ≤ c →
  reproject_slice_spec compute_overlap a c par
  = r1 ← reproject_slice_spec compute_overlap a b par;
    r2 ← reproject_slice_spec compute_overlap b c par;
    Ok (pair_add r1 r2).
Proof.
  intros Hab Hbc. rewrite !slice_spec_updates. unfold slice_updates.
  rewrite (py_range_split a b c), columns_updates_app by done.
  destruct (columns_updates py_floor par (py_range a b)) as [us1|e]; [|done]. simpl.
  destruct (columns_updates py_floor par (py_range b c)) as [us2|e]; [|done]. simpl.
  by rewrite foldl_updates_app.
Qed.

Lemma chain_le a ranges c : chain a ranges c → a ≤ c.
Proof.
  revert a. induction ranges as [|[x y] ranges IH]; intros a; simpl.
  - lia.
  - intros (_ & Hay & Hrest). apply IH in Hrest. lia.
Qed.

Lemma foldl_grid_add_shift (g1 g2 : grid F) rest :
  foldl grid_add (grid_add g1 g2) rest = grid_add g1 (foldl grid_add g2 rest).
Proof.
  revert g2. induction rest as [|g rest IH]; intros g2; [done|].
  simpl. by rewrite <- grid_add_assoc, IH.
Qed.

Lemma merged_one (r : grid F * grid F) : merged [r] = r.
Proof. unfold merged. simpl. rewrite !zero_plus_grid. by destruct r. Qed.

Lemma merged_cons (r1 r2 : grid F * grid F) rs :
  merged (r1 :: r2 :: rs) = pair_add r1 (merged (r2 :: rs)).
Proof.
  unfold merged, pair_add. simpl. rewrite !zero_plus_grid.
  by rewrite !foldl_grid_add_shift.
Qed.

Lemma gather_nonempty slice task ranges rs :
  gather slice par (task :: ranges) = Ok rs → ∃ r rs', rs = r :: rs'.
Proof.
  simpl. intros (r & _ & (rs' & _ & [= <-])%rbind_Ok)%rbind_Ok. eauto.
Qed.

(** Merging the slices of ranges that follow one another from [a] to [c]
    gives the slice from [a] to [c], and fails where it fails. *)
Lemma gather_chain a ranges c :
  chain a ranges c → ranges ≠ [] →
  (rs ← gather (reproject_slice_spec compute_overlap) par ranges; Ok (merged rs))
  = reproject_slice_spec compute_overlap a c par.
Proof.
  revert a. induction ranges as [|[x y] ranges IH]; intros a Hchain Hne; [done|].
  destruct Hchain as (-> & Hay & Hrest). destruct ranges as [|task ranges].
  - simpl in Hrest. subst y. simpl.
    destruct (reproject_slice_spec compute_overlap a c par) as [r|e]; [|done]. simpl.
    by rewrite merged_one.
  - specialize (IH y Hrest ltac:(done)).
    rewrite (slice_spec_split a y c), <- IH by eauto using chain_le.
    change (gather _ par ((a, y) :: task :: ranges))
      with (r ← reproject_slice_spec compute_overlap a y par;
            rs ← gather (reproject_slice_spec compute_overlap) par (task :: ranges);
            mret (r :: rs)).
    destruct (reproject_slice_spec compute_overlap a y par) as [r1|e]; [|done].
    destruct (gather _ par (task :: ranges)) as [rs|e] eqn:Hrs; [|done].
    apply gather_nonempty in Hrs as (r2 & rs' & ->). simpl.
    by rewrite merged_cons.
Qed.

End Slices.

Section PartitionChain.
Variables nx_in nproc : Z.
Hypothesis Hnx : 0 ≤ nx_in.
Hypothesis Hnp : 1 ≤ nproc.

Lemma partitions_from_chain (len : nat) (i0 : Z) :
  0 ≤ i0 → i0 + Z.of_nat len = nproc → (1 ≤ len)%nat →
  chain (partition_start nx_in nproc i0)
    ((λ i, (partition_start nx_in nproc i, partition_end nx_in nproc i))
       <$> seqZ i0 (Z.of_nat len))
    nx_in.
Proof.
  revert i0. induction len as [|len IH]; intros i0 Hi0 Hsum Hlen; [lia|].
  rewrite Nat2Z.inj_succ, seqZ_cons by lia. csimpl.
  pose proof (partition_ordered nx_in nproc Hnx Hnp i0 ltac:(lia)) as Hord.
  split; [done|]. split; [lia|].
  replace (Z.pred (Z.succ (Z.of_nat len))) with (Z.of_nat len) by lia.
  destruct len as [|len].
  - simpl. replace i0 with (nproc - 1) by lia. by apply partition_end_last.
  - rewrite (partition_contiguous nx_in nproc i0) by lia.
    replace (Z.succ i0) with (i0 + 1) by lia. apply IH; lia.
Qed.

Lemma partitions_chain : chain 0 (partitions nx_in nproc) nx_in ∧ partitions nx_in nproc ≠ [].
Proof.
  split.
  - rewrite <- (partition_start_0 nx_in nproc). unfold partitions, py_range.
    replace (nproc - 0) with (Z.of_nat (Z.to_nat nproc)) by lia.
    apply partitions_from_chain; lia.
  - intros Hnil. apply (f_equal length) in Hnil.
    rewrite partitions_length in Hnil; simpl in Hnil; lia.
Qed.

End PartitionChain.

(** ** A parallel run in which nothing fails outside the workers *)

Section QuietRun.
Context `{Scalar F}.
Variable slice : Z → Z → common_par F → result (grid F * grid F).
Variable world : env.
Variable nx_in : Z.
Variable par : common_par F.
Hypothesis Hpool : pool_fault world = None.
Hypothesis Happly : ∀ i, apply_fault world i = None.
Hypothesis Hget : ∀ k, get_fault world k = None.
Hypothesis Hcleanup : cleanup_completes world.

Lemma apply_each_quiet ranges i s :
  ∃ s1, apply_each world ranges i s = (s1, Ok ranges).
Proof.
  revert i s. induction ranges as [|[a b] ranges IH]; intros i s; [by eexists|].
  simpl. unfold mbind at 1. unfold M_bind. rewrite call_run, Happly.
  unfold mbind, M_bind.
  destruct (IH (S i) (State (trace s ++ [EvApplyAsync a b]) (pool s))) as [s1 ->].
  by eexists.
Qed.

Lemma get_quiet k task s :
  get slice world par k task s
  = (State (trace s ++ [EvGet k]) (pool s), slice task.1 task.2 par).
Proof. unfold get, mbind, M_bind. by rewrite call_run, Hget. Qed.

Lemma get_each_quiet (proj : grid F * grid F → grid F) results k s :
  ∃ s1, get_each slice world par proj results k s
        = (s1, rbind (gather slice par results) (λ rs, Ok (fmap (M := list) proj rs))).
Proof.
  revert k s. induction results as [|[a b] results IH]; intros k s; [by eexists|].
  simpl. unfold mbind at 1. unfold M_bind. rewrite get_quiet. cbn [fst snd].
  destruct (slice a b par) as [r|e]; [|by eexists]. simpl.
  unfold mbind at 1. unfold M_bind.
  destruct (IH (S k) (State (trace s ++ [EvGet k]) (pool s))) as [s1 ->].
  destruct (gather slice par results) as [rs|e]; by eexists.
Qed.

(** The guarded block returns the merged results of the workers, or the
    first failure among them. *)
Lemma parallel_body_quiet n s :
  1 ≤ n →
  ∃ s1, parallel_body slice world nx_in par n s
        = (s1, rs ← gather slice par (partitions nx_in n); Ok (merged rs)).
Proof.
  intros Hn. unfold parallel_body. unfold mbind at 1. unfold M_bind.
  rewrite create_pool_run by done.
  unfold mbind at 1. unfold M_bind.
  destruct (apply_each_quiet (partitions nx_in n) 0
              (State (trace s ++ [EvPoolCreate n]) true)) as [sa ->].
  unfold mbind at 1. unfold M_bind.
  destruct (get_each_quiet fst (partitions nx_in n) 0 sa) as [sb ->].
  destruct (gather slice par (partitions nx_in n)) as [rs|e] eqn:Hrs; [|by eexists]. simpl.
  unfold mbind at 1. unfold M_bind.
  destruct (get_each_quiet snd (partitions nx_in n) (length (partitions nx_in n)) sb)
    as [sc ->].
  rewrite Hrs. by eexists.
Qed.

Lemma serial_impl_result s :
  (serial_impl slice nx_in par s).2
  = rbind (slice 0 nx_in par) (λ r, Ok (grid_div r.1 r.2, r.2)).
Proof.
  unfold serial_impl. unfold mbind at 1. unfold M_bind, emit.
  unfold mbind, M_bind, lift. by destruct (slice 0 nx_in par) as [[a w]|e].
Qed.

Lemma parallel_impl_result n s :
  (parallel_impl slice world nx_in par (Some n) s).2
  = rbind (parallel_body slice world nx_in par n (State (trace s) false)).2
      (λ r, Ok (grid_div r.1 r.2, r.2)).
Proof.
  rewrite parallel_impl_run by done.
  destruct (parallel_body slice world nx_in par n _) as [s1 [[a w]|e]]; [done|].
  by destruct (is_KeyboardInterrupt e).
Qed.

(** [parallel_impl] returns the merged results divided, or raises the
    first failure among the workers. *)
Lemma parallel_impl_quiet n s :
  1 ≤ n →
  (parallel_impl slice world nx_in par (Some n) s).2
  = rbind (rbind (gather slice par (partitions nx_in n)) (λ rs, Ok (merged rs)))
      (λ r, Ok (grid_div r.1 r.2, r.2)).
Proof.
  intros Hn. rewrite parallel_impl_result.
  by destruct (parallel_body_quiet n (State (trace s) false) Hn) as [s1 ->].
Qed.

End QuietRun.

(** ** Partition invariance *)

Section Invariance.
Context `{ExactSum F}.
Variable compute_overlap : list F → list F → list F → list F → F.
Variable world : env.
Variable nx_in : Z.
Variable par : common_par F.

(** C2.  With sums that are exact, and when nothing fails outside the
    workers (no call on the pool fails or is interrupted), parallel
    execution over any number [n >= 1] of column ranges returns the result
    image and the footprint that serial execution over all columns
    returns: the sums of the workers' accumulator pairs are the serial
    accumulators, and both are divided in the same way. *)
Theorem parallel_equals_serial nproc n :
  0 ≤ nx_in →
  resolved_count world nproc = Ok n →
  1 ≤ n →
  pool_fault world = None →
  (∀ i, apply_fault world i = None) →
  (∀ k, get_fault world k = None) →
  cleanup_completes world →
  partition_invariant (reproject_slice_spec compute_overlap) world nx_in par nproc n.
Proof.
  intros Hnx Hres Hn Hpool Happly Hget Hcleanup.
  destruct (partitions_chain nx_in n Hnx Hn) as [Hchain Hne].
  pose proof (gather_chain compute_overlap par 0 _ nx_in Hchain Hne) as Hmerge.
  split; [exact Hmerge|]. intros s s'.
  rewrite (parallel_impl_resolved _ _ _ _ _ n) by done.
  rewrite parallel_impl_quiet, serial_impl_result by done.
  f_equal. exact Hmerge.
Qed.

End Invariance.

(** Two columns over two workers, one column each, in exact arithmetic. *)
Lemma parallel_equals_serial_witness :
  0 ≤ 2
  ∧ resolved_count Demo.quiet (Some 2) = Ok 2
  ∧ 1 ≤ 2
  ∧ pool_fault Demo.quiet = None
  ∧ (∀ i, apply_fault Demo.quiet i = None)
  ∧ (∀ k, get_fault Demo.quiet k = None)
  ∧ cleanup_completes Demo.quiet
  ∧ partitions 2 2 = [(0, 1); (1, 2)]
  ∧ partition_invariant (reproject_slice_spec Demo.unit_overlap_q) Demo.quiet 2
      Demo.request_q (Some 2) 2.
Proof.
  split; [lia|]. split; [reflexivity|]. split; [lia|]. split; [reflexivity|].
  split; [intros i; reflexivity|]. split; [intros k; reflexivity|].
  split; [by repeat split|]. split; [reflexivity|].
  apply (parallel_equals_serial Demo.unit_overlap_q Demo.quiet 2 Demo.request_q (Some 2) 2);
    first [lia | reflexivity | by repeat split | intros; reflexivity].
Defined.

(** In binary64 the two runs of the small request agree as well. *)
Example parallel_equals_serial_demo :
  (reproject_celestial Demo.unit_overlap Demo.same_frame Demo.kernel Demo.quiet
     Demo.image Demo.plain Demo.plain (2%nat, 2%nat) (PyInt 3) "c" Demo.start).2
  = (reproject_celestial Demo.unit_overlap Demo.same_frame Demo.kernel Demo.quiet
       Demo.image Demo.plain Demo.plain (2%nat, 2%nat) (PyBool false) "c" Demo.start).2.
Proof. vm_compute. reflexivity. Qed.

(** binary64 sums depend on their order: 1e16 + 1 + 1 is not
    1e16 + (1 + 1).  Sums split over workers are grouped differently. *)
Example binary64_sum_order :
  let big := B64.of_Z 10000000000000000 in
  B64.add (B64.add big B64.one) B64.one ≠ B64.add big (B64.add B64.one B64.one).
Proof. vm_compute. discriminate. Qed.

Section TopLevelInvariance.
Context `{ExactSum F}.
Variable compute_overlap : list F → list F → list F → list F → F.
Variable convert_world_coordinates : wcs F → wcs F → F → F → F * F.
Variable world : env.
Hypothesis Hpool : pool_fault world = None.
Hypothesis Happly : ∀ i, apply_fault world i = None.
Hypothesis Hget : ∀ k, get_fault world k = None.
Hypothesis Hcleanup : cleanup_completes world.

Lemma flag_count_positive parallel n : check_parallel_flag parallel = Ok (Some n) → 1 ≤ n.
Proof.
  destruct parallel as [[]|m| | |]; simpl; try done.
  - intros [= <-]. lia.
  - case_decide; [done|]. intros [= <-]. lia.
Qed.

(** The same at the level of the call: any accepted flag gives the
    result the flag [False] gives. *)
Lemma reproject_partition_invariant array wcs_in wcs_out shape_out parallel nproc n s s' :
  check_parallel_flag parallel = Ok nproc →
  naxis wcs_in = 2 →
  resolved_count world nproc = Ok n →
  1 ≤ n →
  (reproject_celestial compute_overlap convert_world_coordinates
     (reproject_slice_spec compute_overlap) world
     array wcs_in wcs_out shape_out parallel "c" s).2
  = (reproject_celestial compute_overlap convert_world_coordinates
       (reproject_slice_spec compute_overlap) world
       array wcs_in wcs_out shape_out (PyBool false) "c" s').2.
Proof.
  intros Hflag Hax Hres Hn.
  rewrite (reproject_dispatch _ _ _ _ _ _ _ _ (PyBool false) _ s' (Some 1)) by done.
  cbv zeta. cbn [String.eqb Ascii.eqb Bool.eqb andb]. rewrite bool_decide_eq_true_2 by done.
  set (nx_in := Z.of_nat (shape_of array).2).
  set (par := make_common_func_par convert_world_coordinates array wcs_in wcs_out shape_out).
  rewrite serial_impl_result.
  destruct (wants_pool nproc) eqn:Hwants.
  - rewrite (reproject_parallel _ _ _ _ _ _ _ _ _ nproc) by done. fold nx_in par.
    assert (∀ s0, (parallel_impl (reproject_slice_spec compute_overlap) world nx_in par
                     nproc s0).2
                  = rbind (reproject_slice_spec compute_overlap 0 nx_in par)
                      (λ r, Ok (grid_div r.1 r.2, r.2))) as Hpar.
    { intros s0. rewrite (parallel_impl_resolved _ _ _ _ _ n) by done.
      rewrite parallel_impl_quiet by done. f_equal.
      destruct (partitions_chain nx_in n ltac:(lia) Hn) as [Hchain Hne].
      by apply gather_chain. }
    unfold parallel_or_fallback, try_except.
    specialize (Hpar (after_mapping s)).
    destruct (parallel_impl _ world nx_in par nproc (after_mapping s)) as [s1 [v|e]];
      [done|]. cbn [snd] in Hpar.
    destruct (is_KeyboardInterrupt e); [done|].
    destruct (is_Exception e); [|done].
    unfold mbind at 1. unfold M_bind, emit. unfold mbind at 1. unfold M_bind.
    by rewrite serial_impl_result.
  - destruct nproc as [m|]; [|done]. simpl in Hwants.
    apply bool_decide_eq_false in Hwants.
    pose proof (flag_count_positive _ _ Hflag). assert (m = 1) as -> by lia.
    rewrite (reproject_dispatch _ _ _ _ _ _ _ _ _ _ _ (Some 1)) by done.
    cbv zeta. cbn [String.eqb Ascii.eqb Bool.eqb andb].
    rewrite bool_decide_eq_true_2 by done. by rewrite serial_impl_result.
Qed.

End TopLevelInvariance.

(** ** Bounds of the updates, and the pool after the attempt *)

Section Safety.
Context `{Scalar F}.

Lemma slice_updates_inside to_index (par : common_par F) startx endx us :
  slice_updates to_index par startx endx = Ok us → inside_output par us.
Proof.
  intros Hus u Hu. unfold slice_updates in Hus.
  apply (columns_updates_elem _ _ _ _ u Hus) in Hu as (_ & _ & box & _ & Hin).
  destruct box as [[[xmin xmax] ymin] ymax]. simpl in Hin.
  apply box_pixels_elem in Hin. lia.
Qed.

(** The loops return whenever every index box can be computed. *)
Lemma columns_updates_return to_index (par : common_par F) cols :
  (∀ j i, ∃ box, index_box to_index par j i = Ok box) →
  ∃ us, columns_updates to_index par cols = Ok us.
Proof.
  intros Hbox.
  assert (∀ rows i, ∃ us, rows_updates to_index par rows i = Ok us) as Hrows.
  { intros rows i. induction rows as [|j rows [rest IH]]; [by eexists|].
    simpl. unfold pixel_updates. destruct (Hbox j i) as [box ->]. simpl.
    rewrite IH. by eexists. }
  induction cols as [|i cols [rest IH]]; [by eexists|].
  simpl. destruct (Hrows (py_range (starty par) (endy par)) i) as [us ->]. simpl.
  rewrite IH. by eexists.
Qed.

Lemma resample_slice_returns compute_overlap to_index (par : common_par F) startx endx :
  (∀ j i, ∃ box, index_box to_index par j i = Ok box) →
  ∃ r, resample_slice compute_overlap to_index par startx endx = Ok r.
Proof.
  intros Hbox. unfold resample_slice. rewrite resample_columns_updates.
  destruct (columns_updates_return to_index par (py_range startx endx) Hbox) as [us Hus].
  unfold slice_updates. rewrite Hus. by eexists.
Qed.

(** The updates of the legacy loops stay inside the two output arrays:
    no index is negative and none reaches the number of rows or columns. *)
Theorem legacy_updates_inside_output (par : common_par F) nx_in us :
  nx_out par = Z.of_nat (shape_out par).2 →
  ny_out par = Z.of_nat (shape_out par).1 →
  slice_updates py_int par 0 nx_in = Ok us →
  inside_output par us
  ∧ ∀ u, u ∈ us →
         0 ≤ u_jj u ∧ 0 ≤ u_ii u
         ∧ (Z.to_nat (u_jj u) < (shape_out par).1)%nat
         ∧ (Z.to_nat (u_ii u) < (shape_out par).2)%nat.
Proof.
  intros Hnx Hny Hus. pose proof (slice_updates_inside _ _ _ _ _ Hus) as Hin.
  split; [done|]. intros u Hu. specialize (Hin u Hu). lia.
Qed.

Variable slice : Z → Z → common_par F → result (grid F * grid F).
Variable world : env.

(** When the calls that release the pool complete, a pool that
    [parallel_impl] created has been joined by the time [parallel_impl]
    ends, whether it ends with a result, a failure or an interrupt. *)
Theorem pool_joined_when_cleanup_completes nx_in par n s s2 r :
  cleanup_completes world →
  parallel_impl slice world nx_in par (Some n) s = (s2, r) →
  pool_joined n s s2.
Proof.
  intros Hcleanup. rewrite parallel_impl_run by done.
  destruct (parallel_body slice world nx_in par n (State (trace s) false))
    as [s1 r1] eqn:Hbody.
  apply parallel_body_logged in Hbody as (evs & Ht & Hf & Hp); [|done].
  cbn [trace] in Ht.
  assert (∀ p' a b, (a = EvPoolClose ∨ a = EvPoolTerminate) → b = EvPoolJoin →
            pool_joined n s (State (trace s1 ++ (if pool s1 then [a; b] else [])) p'))
    as Hjoined.
  { intros p' a b Ha ->. unfold pool_joined. cbn [trace].
    destruct (pool s1).
    - exists (evs ++ [a; EvPoolJoin]). rewrite Ht, app_assoc. split; [done|].
      right. exists evs. split; [by destruct evs|]. split; [done|].
      destruct Ha as [-> | ->]; eauto.
    - destruct Hp as [-> _]. exists []. rewrite Ht, !app_nil_r. eauto. }
  destruct r1 as [[a w]|e].
  - intros [= <- _]. apply Hjoined; eauto.
  - destruct (is_KeyboardInterrupt e); intros [= <- _]; apply Hjoined; eauto.
Qed.

End Safety.

(** The pixel left of the image, whose only update goes to output pixel
    (0, 0). *)
Lemma legacy_updates_inside_output_witness :
  nx_out Demo.left_of_image = Z.of_nat (shape_out Demo.left_of_image).2
  ∧ ny_out Demo.left_of_image = Z.of_nat (shape_out Demo.left_of_image).1
  ∧ slice_updates py_int Demo.left_of_image 0 1 = Ok [Update 0 0 0 0]
  ∧ inside_output Demo.left_of_image [Update 0 0 0 0]
  ∧ ∀ u, u ∈ [Update 0 0 0 0] →
         0 ≤ u_jj u ∧ 0 ≤ u_ii u
         ∧ (Z.to_nat (u_jj u) < (shape_out Demo.left_of_image).1)%nat
         ∧ (Z.to_nat (u_ii u) < (shape_out Demo.left_of_image).2)%nat.
Proof.
  split; [reflexivity|]. split; [reflexivity|]. split; [vm_compute; reflexivity|].
  apply (legacy_updates_inside_output Demo.left_of_image 1 [Update 0 0 0 0]);
    first [reflexivity | vm_compute; reflexivity].
Defined.

(** A worker lost while the second result is awaited: the pool is closed
    and joined. *)
Lemma pool_joined_when_cleanup_completes_witness :
  cleanup_completes (Demo.second_get_raises Demo.worker_lost)
  ∧ parallel_impl Demo.kernel (Demo.second_get_raises Demo.worker_lost) 2
      Demo.request (Some 3) (after_mapping Demo.start)
    = (Demo.released, Raise Demo.worker_lost)
  ∧ pool_joined 3 (after_mapping Demo.start) Demo.released.
Proof.
  split; [by repeat split|]. split; [vm_compute; reflexivity|].
  apply (pool_joined_when_cleanup_completes Demo.kernel
           (Demo.second_get_raises Demo.worker_lost)
           2 Demo.request 3 (after_mapping Demo.start) Demo.released
           (Raise Demo.worker_lost)).
  - by repeat split.
  - vm_compute. reflexivity.
Defined.

(** ** The legacy branch as a whole *)

Section LegacyCall.
Context `{Scalar F}.
Variable compute_overlap : list F → list F → list F → list F → F.
Variable convert_world_coordinates : wcs F → wcs F → F → F → F * F.
Variable _reproject_slice_cython : Z → Z → common_par F → result (grid F * grid F).
Variable world : env.

(** A call with [_method = "legacy"] that got past its checks. *)
Lemma reproject_legacy array wcs_in wcs_out shape_out parallel nproc s :
  check_parallel_flag parallel = Ok nproc →
  naxis wcs_in = 2 →
  reproject_celestial compute_overlap convert_world_coordinates _reproject_slice_cython
    world array wcs_in wcs_out shape_out parallel "legacy" s
  = (State (trace (after_mapping s) ++ [EvLegacyLoops]) (pool s),
     divided (legacy_loops compute_overlap (Z.of_nat (shape_of array).2)
                (make_common_func_par convert_world_coordinates array wcs_in wcs_out
                   shape_out))).
Proof.
  intros Hflag Hax. rewrite (reproject_dispatch _ _ _ _ _ _ _ _ _ _ _ nproc) by done.
  cbv zeta. cbn [String.eqb Ascii.eqb Bool.eqb].
  unfold mbind at 1. unfold M_bind, emit. unfold mbind, lift, divided.
  by destruct (legacy_loops _ _ _) as [[a w]|e].
Qed.

(** A call with [_method = "legacy"] that returns went through the loops. *)
Lemma reproject_legacy_Ok array wcs_in wcs_out shape_out parallel s s' img fp :
  reproject_celestial compute_overlap convert_world_coordinates _reproject_slice_cython
    world array wcs_in wcs_out shape_out parallel "legacy" s = (s', Ok (img, fp)) →
  naxis wcs_in = 2
  ∧ ∃ flux,
      legacy_loops compute_overlap (Z.of_nat (shape_of array).2)
        (make_common_func_par convert_world_coordinates array wcs_in wcs_out shape_out)
      = Ok (flux, fp)
      ∧ img = grid_div flux fp.
Proof.
  destruct (check_parallel_flag parallel) as [nproc|e] eqn:Hflag.
  - destruct (decide (naxis wcs_in = 2)) as [Hax|Hax].
    + rewrite (reproject_legacy _ _ _ _ _ nproc) by done.
      destruct (legacy_loops _ _ _) as [[a w]|e]; [|done].
      intros [= _ <- <-]. eauto.
    + by rewrite (reproject_bad_naxis _ _ _ _ _ _ _ _ _ _ _ nproc).
  - by rewrite (reproject_bad_flag _ _ _ _ _ _ _ _ _ _ _ e).
Qed.

(** With [_method = "legacy"] the [parallel] flag is checked and then not
    used: every accepted flag gives the same outcome and the same trace,
    in which there is no pool and no call of the slice function. *)
Theorem legacy_ignores_parallel_flag array wcs_in wcs_out shape_out p1 p2 n1 n2 s :
  check_parallel_flag p1 = Ok n1 →
  check_parallel_flag p2 = Ok n2 →
  let run parallel :=
    reproject_celestial compute_overlap convert_world_coordinates
      _reproject_slice_cython world array wcs_in wcs_out shape_out parallel "legacy" s in
  run p1 = run p2
  ∧ (naxis wcs_in = 2 →
     trace (run p1).1 = trace s ++ EvAstypeFloat :: mapping_events ++ [EvLegacyLoops]).
Proof.
  intros H1 H2 run. unfold run. split.
  - destruct (decide (naxis wcs_in = 2)) as [Hax|Hax].
    + by rewrite (reproject_legacy _ _ _ _ _ n1), (reproject_legacy _ _ _ _ _ n2).
    + by rewrite (reproject_bad_naxis _ _ _ _ _ _ _ _ _ _ _ n1),
        (reproject_bad_naxis _ _ _ _ _ _ _ _ _ _ _ n2).
  - intros Hax. rewrite (reproject_legacy _ _ _ _ _ n1) by done.
    cbn [fst trace]. unfold after_mapping. cbn [trace].
    by rewrite <- app_assoc.
Qed.

End LegacyCall.

(** ** The legacy branch in binary64 *)

Section LegacyBinary64.
Variable compute_overlap :
  list spec_float → list spec_float → list spec_float → list spec_float → spec_float.
Variable convert_world_coordinates :
  wcs spec_float → wcs spec_float → spec_float → spec_float → spec_float * spec_float.
Variable _reproject_slice_cython :
  Z → Z → common_par spec_float → result (grid spec_float * grid spec_float).
Variable world : env.

Lemma aimed_at_unreached to_index (par : common_par spec_float) nx_in us (j i : nat) :
  slice_updates to_index par 0 nx_in = Ok us →
  ¬ reached to_index par nx_in (Z.of_nat j) (Z.of_nat i) →
  aimed_at j i us = [].
Proof.
  intros Hus Hno. apply elem_of_nil_inv. intros u Hu.
  apply list_elem_of_filter in Hu as [[Hjj Hii] Hu].
  apply (columns_updates_elem _ _ _ _ u Hus) in Hu as (Hi & Hj & box & Hbox & Hin).
  apply Hno. exists (u_j u), (u_i u), box.
  unfold py_range in Hi, Hj. apply elem_of_seqZ in Hi, Hj.
  rewrite <- Hjj, <- Hii. repeat split; (lia || done).
Qed.

(** The image and the footprint a legacy call returns have the requested
    shape, and at an output pixel that the clipped box of no input pixel
    holds the footprint is 0.0 and the image is NaN. *)
Theorem unreached_pixel_is_blank array wcs_in wcs_out shape_out parallel s s' img fp :
  reproject_celestial compute_overlap convert_world_coordinates _reproject_slice_cython
    world array wcs_in wcs_out shape_out parallel "legacy" s = (s', Ok (img, fp)) →
  has_shape img shape_out.1 shape_out.2
  ∧ has_shape fp shape_out.1 shape_out.2
  ∧ ∀ j i : nat, (j < shape_out.1)%nat → (i < shape_out.2)%nat →
      ¬ reached py_int
          (make_common_func_par convert_world_coordinates array wcs_in wcs_out shape_out)
          (Z.of_nat (shape_of array).2) (Z.of_nat j) (Z.of_nat i) →
      cell fp j i = Some B64.zero ∧ cell img j i = Some B64.nan.
Proof.
  intros (Hax & flux & Hloops & ->)%reproject_legacy_Ok.
  apply loops_accumulate in Hloops as (us & Hus & _ & _ & Hs1 & Hs2 & Hcell).
  simpl in Hs1, Hs2, Hcell.
  split; [by apply (zip_rows_shape (F := spec_float))|]. split; [done|].
  intros j i Hj Hi Hno. destruct (Hcell j i Hj Hi) as [Hf Hw].
  rewrite (aimed_at_unreached _ _ _ us j i Hus Hno) in Hf, Hw.
  split; [exact Hw|].
  apply (zip_rows_cell (F := spec_float) B64.div _ _ _ _ _ _ Hf Hw).
Qed.

End LegacyBinary64.

(** One pixel onto an output of three columns: its box holds the columns
    0 and 1, and column 2 stays blank. *)
Lemma unreached_pixel_is_blank_witness :
  reproject_celestial Demo.unit_overlap Demo.same_frame Demo.kernel Demo.quiet
    Demo.pixel Demo.plain Demo.plain (1%nat, 3%nat) (PyBool false) "legacy" Demo.start
  = (State (EvAstypeFloat :: mapping_events ++ [EvLegacyLoops]) false,
     Ok ([[B64.of_Z 3; B64.of_Z 3; B64.nan]], [[B64.one; B64.one; B64.zero]]))
  ∧ has_shape [[B64.of_Z 3; B64.of_Z 3; B64.nan]] (1%nat, 3%nat).1 (1%nat, 3%nat).2
  ∧ has_shape [[B64.one; B64.one; B64.zero]] (1%nat, 3%nat).1 (1%nat, 3%nat).2
  ∧ ∀ j i : nat, (j < (1%nat, 3%nat).1)%nat → (i < (1%nat, 3%nat).2)%nat →
      ¬ reached py_int
          (make_common_func_par Demo.same_frame Demo.pixel Demo.plain Demo.plain
             (1%nat, 3%nat))
          (Z.of_nat (shape_of Demo.pixel).2) (Z.of_nat j) (Z.of_nat i) →
      cell [[B64.one; B64.one; B64.zero]] j i = Some B64.zero
      ∧ cell [[B64.of_Z 3; B64.of_Z 3; B64.nan]] j i = Some B64.nan.
Proof.
  split; [vm_compute; reflexivity|].
  apply (unreached_pixel_is_blank Demo.unit_overlap Demo.same_frame Demo.kernel Demo.quiet
           Demo.pixel Demo.plain Demo.plain (1%nat, 3%nat) (PyBool false) Demo.start
           (State (EvAstypeFloat :: mapping_events ++ [EvLegacyLoops]) false)).
  vm_compute. reflexivity.
Defined.

(** ** The footprint and the image values *)

Section Geometry.
Context `{Scalar F}.
Variable compute_overlap : list F → list F → list F → list F → F.
Variable to_index : F → result Z.
Variables p q : common_par F.
Hypothesis Hgeo : same_geometry p q.

Lemma index_box_geometry j i : index_box to_index p j i = index_box to_index q j i.
Proof.
  destruct Hgeo as (_ & _ & _ & _ & Hx & Hy & _). unfold index_box. by rewrite Hx, Hy.
Qed.

Lemma pixel_updates_geometry j i :
  pixel_updates to_index p j i = pixel_updates to_index q j i.
Proof.
  unfold pixel_updates. rewrite index_box_geometry.
  destruct (index_box to_index q j i) as [[[[xmin xmax] ymin] ymax]|e]; [|done].
  destruct Hgeo as (_ & _ & Hnx & Hny & _). unfold clip_box. by rewrite Hnx, Hny.
Qed.

Lemma slice_updates_geometry startx endx :
  slice_updates to_index p startx endx = slice_updates to_index q startx endx.
Proof.
  assert (∀ rows i, rows_updates to_index p rows i = rows_updates to_index q rows i)
    as Hrows.
  { intros rows i. induction rows as [|j rows IH]; [done|].
    simpl. by rewrite pixel_updates_geometry, IH. }
  unfold slice_updates. induction (py_range startx endx) as [|i cols IH]; [done|].
  simpl. destruct Hgeo as (Hs & He & _). by rewrite Hs, He, Hrows, IH.
Qed.

Lemma fraction_geometry j i jj ii :
  fraction compute_overlap p j i jj ii = fraction compute_overlap q j i jj ii.
Proof.
  destruct Hgeo as (_ & _ & _ & _ & _ & _ & H1 & H2 & H3 & H4 & _).
  unfold fraction. by rewrite H1, H2, H3, H4.
Qed.

(** The weights depend on the geometry alone. *)
Lemma foldl_weights_geometry us acc1 acc2 :
  acc1.2 = acc2.2 →
  (foldl (apply_update compute_overlap p) acc1 us).2
  = (foldl (apply_update compute_overlap q) acc2 us).2.
Proof.
  revert acc1 acc2. induction us as [|u us IH]; intros acc1 acc2 Hacc; [done|].
  simpl. apply IH. rewrite !apply_update_unfold. cbn [snd].
  by rewrite Hacc, fraction_geometry.
Qed.

Lemma resample_slice_footprint startx endx :
  footprint_of (resample_slice compute_overlap to_index p startx endx)
  = footprint_of (resample_slice compute_overlap to_index q startx endx).
Proof.
  unfold resample_slice. rewrite !resample_columns_updates, slice_updates_geometry.
  destruct (slice_updates to_index q startx endx) as [us|e]; [|done]. simpl.
  f_equal. apply foldl_weights_geometry. cbn [snd].
  destruct Hgeo as (_ & _ & _ & _ & _ & _ & _ & _ & _ & _ & ->). done.
Qed.

End Geometry.

Section Footprint.
Context `{Scalar F}.
Variable compute_overlap : list F → list F → list F → list F → F.
Variable convert_world_coordinates : wcs F → wcs F → F → F → F * F.
Variable _reproject_slice_cython : Z → Z → common_par F → result (grid F * grid F).
Variable world : env.

Lemma footprint_of_divided (r : result (grid F * grid F)) :
  footprint_of (divided r) = footprint_of r.
Proof. by destruct r. Qed.

(** The footprint of a legacy call depends on the shape of the image, not
    on its pixel values: two images of one shape give the same footprint
    (or the same exception) and the same trace. *)
Theorem footprint_ignores_pixel_values a1 a2 wcs_in wcs_out shape_out parallel s :
  shape_of a1 = shape_of a2 →
  let run array :=
    reproject_celestial compute_overlap convert_world_coordinates
      _reproject_slice_cython world array wcs_in wcs_out shape_out parallel "legacy" s in
  (run a1).1 = (run a2).1 ∧ footprint_of (run a1).2 = footprint_of (run a2).2.
Proof.
  intros Hshape run. unfold run.
  destruct (check_parallel_flag parallel) as [nproc|e] eqn:Hflag;
    [|by rewrite !(reproject_bad_flag _ _ _ _ _ _ _ _ _ _ _ e)].
  destruct (decide (naxis wcs_in = 2)) as [Hax|Hax];
    [|by rewrite !(reproject_bad_naxis _ _ _ _ _ _ _ _ _ _ _ nproc)].
  rewrite !(reproject_legacy _ _ _ _ _ _ _ _ _ nproc) by done.
  split; [done|]. cbn [snd]. rewrite !footprint_of_divided, Hshape.
  apply resample_slice_footprint.
  unfold same_geometry, make_common_func_par. rewrite Hshape. by repeat split.
Qed.

End Footprint.

(** The flags [True] and 1 on the small request. *)
Lemma legacy_ignores_parallel_flag_witness :
  check_parallel_flag (PyBool true) = Ok None
  ∧ check_parallel_flag (PyInt 1) = Ok (Some 1)
  ∧ (let run parallel :=
       reproject_celestial Demo.unit_overlap Demo.same_frame Demo.kernel Demo.quiet
         Demo.image Demo.plain Demo.plain (2%nat, 2%nat) parallel "legacy" Demo.start in
     run (PyBool true) = run (PyInt 1)
     ∧ (naxis Demo.plain = 2 →
        trace (run (PyBool true)).1
        = trace Demo.start ++ EvAstypeFloat :: mapping_events ++ [EvLegacyLoops])).
Proof.
  split; [reflexivity|]. split; [reflexivity|].
  exact (legacy_ignores_parallel_flag Demo.unit_overlap Demo.same_frame Demo.kernel
           Demo.quiet Demo.image Demo.plain Demo.plain (2%nat, 2%nat)
           (PyBool true) (PyInt 1) None (Some 1) Demo.start eq_refl eq_refl).
Defined.

(** Two images of 2 x 2 pixels with different values. *)
Lemma footprint_ignores_pixel_values_witness :
  shape_of Demo.image = shape_of Demo.clean
  ∧ (let run array :=
       reproject_celestial Demo.unit_overlap Demo.same_frame Demo.kernel Demo.quiet
         array Demo.plain Demo.plain (2%nat, 2%nat) (PyBool true) "legacy" Demo.start in
     (run Demo.image).1 = (run Demo.clean).1
     ∧ footprint_of (run Demo.image).2 = footprint_of (run Demo.clean).2).
Proof.
  split; [reflexivity|].
  exact (footprint_ignores_pixel_values Demo.unit_overlap Demo.same_frame Demo.kernel
           Demo.quiet Demo.image Demo.clean Demo.plain Demo.plain
           (2%nat, 2%nat) (PyBool true) Demo.start eq_refl).
Defined.

(** ** More workers than columns *)

(** With more processes than input columns the quotient [nx_in // nproc]
    is zero: every range but the last is empty, and the last worker gets
    all the columns. *)
Theorem partitions_more_workers_than_columns nx_in nproc :
  0 ≤ nx_in → nx_in < nproc →
  partitions nx_in nproc = replicate (Z.to_nat (nproc - 1)) (0, 0) ++ [(0, nx_in)].
Proof.
  intros Hnx Hlt. apply list_eq. intros i.
  destruct (decide (Z.of_nat i < nproc)) as [Hi|Hi].
  - rewrite partitions_lookup by done. unfold partition_start, partition_end.
    rewrite Z.div_small by lia.
    destruct (decide (Z.of_nat i = nproc - 1)) as [Hlast|Hlast].
    + rewrite lookup_app_r by (rewrite length_replicate; lia).
      rewrite length_replicate. replace (i - Z.to_nat (nproc - 1))%nat with 0%nat by lia.
      done.
    + rewrite lookup_app_l by (rewrite length_replicate; lia).
      rewrite lookup_replicate_2 by lia. done.
  - rewrite !(proj2 (lookup_ge_None _ _)); [done| |].
    + rewrite length_app, length_replicate. simpl. lia.
    + rewrite partitions_length. lia.
Qed.

Lemma partitions_more_workers_than_columns_witness :
  0 ≤ 2 ∧ 2 < 4 ∧ partitions 2 4 = replicate (Z.to_nat (4 - 1)) (0, 0) ++ [(0, 2)].
Proof.
  split; [lia|]. split; [lia|]. apply (partitions_more_workers_than_columns 2 4); lia.
Defined.

(** ** A parallel run in which nothing fails *)

Section SuccessfulRun.
Context `{Scalar F}.
Variable slice : Z → Z → common_par F → result (grid F * grid F).
Variable world : env.
Variable nx_in : Z.
Variable par : common_par F.
Hypothesis Hpool : pool_fault world = None.
Hypothesis Happly : ∀ i, apply_fault world i = None.
Hypothesis Hget : ∀ k, get_fault world k = None.

Lemma get_each_run (proj : grid F * grid F → grid F) results rs k s :
  gather slice par results = Ok rs →
  get_each slice world par proj results k s
  = (State (trace s ++ (EvGet <$> seq k (length results))) (pool s),
     Ok (fmap (M := list) proj rs)).
Proof.
  revert rs k s. induction results as [|[a b] results IH]; intros rs k s.
  - intros [= <-]. simpl. rewrite app_nil_r. by destruct s.
  - simpl. destruct (slice a b par) as [r|e] eqn:Hr; [|done]. simpl.
    destruct (gather slice par results) as [rs'|e] eqn:Hrs; [|done].
    intros [= <-]. unfold mbind at 1. unfold M_bind.
    rewrite get_quiet by done. cbn [fst snd]. rewrite Hr.
    unfold mbind, M_bind. rewrite (IH rs') by done. cbn [trace pool].
    by rewrite <- app_assoc.
Qed.

(** When no call on the pool fails and every worker returns, the pool is
    created, every column range is submitted once, in order, before any
    result is awaited, every result is then fetched twice (once for the
    images, once for the weights), and the pool is closed and joined; the
    result is the sum of the workers' images divided by the sum of their
    weights, and that sum of weights. *)
Theorem successful_parallel_run n rs s :
  1 ≤ n →
  close_fault world = None →
  join_fault world = None →
  gather slice par (partitions nx_in n) = Ok rs →
  parallel_impl slice world nx_in par (Some n) s
  = (State (trace s ++ EvPoolCreate n :: submissions nx_in n
              ++ (EvGet <$> seq 0 (2 * Z.to_nat n)) ++ [EvPoolClose; EvPoolJoin]) true,
     Ok (grid_div (merged rs).1 (merged rs).2, (merged rs).2)).
Proof.
  intros Hn Hclose Hjoin Hrs. rewrite parallel_impl_unfold. cbv zeta.
  unfold parallel_body. unfold mbind at 1. unfold M_bind.
  rewrite create_pool_run by done.
  unfold mbind at 1. unfold M_bind. rewrite apply_each_run by done.
  unfold mbind at 1. unfold M_bind. rewrite (get_each_run fst _ rs) by done.
  unfold mbind at 1. unfold M_bind. rewrite (get_each_run snd _ rs) by done.
  cbn [fst snd trace pool mret M_ret]. rewrite release_pool_run, Hclose, Hjoin.
  cbn [pool trace divided rbind fst snd]. unfold merged. do 2 f_equal.
  rewrite partitions_length by lia.
  replace (2 * Z.to_nat n)%nat with (Z.to_nat n + Z.to_nat n)%nat by lia.
  rewrite seq_app, fmap_app. unfold submissions.
  rewrite <- !app_assoc. simpl. by rewrite <- ?app_assoc.
Qed.

End SuccessfulRun.

(** The small request over three workers. *)
Lemma successful_parallel_run_witness :
  pool_fault Demo.quiet = None
  ∧ (∀ i, apply_fault Demo.quiet i = None)
  ∧ (∀ k, get_fault Demo.quiet k = None)
  ∧ 1 ≤ 3
  ∧ close_fault Demo.quiet = None
  ∧ join_fault Demo.quiet = None
  ∧ gather Demo.kernel Demo.request (partitions 2 3) = Ok Demo.three_results
  ∧ parallel_impl Demo.kernel Demo.quiet 2 Demo.request (Some 3) Demo.start
    = (State (trace Demo.start ++ EvPoolCreate 3 :: submissions 2 3
                ++ (EvGet <$> seq 0 (2 * Z.to_nat 3)) ++ [EvPoolClose; EvPoolJoin]) true,
       Ok (grid_div (merged Demo.three_results).1 (merged Demo.three_results).2,
           (merged Demo.three_results).2)).
Proof.
  split; [reflexivity|]. split; [intros i; reflexivity|]. split; [intros k; reflexivity|].
  split; [lia|]. split; [reflexivity|]. split; [reflexivity|].
  split; [vm_compute; reflexivity|].
  apply (successful_parallel_run Demo.kernel Demo.quiet 2 Demo.request);
    first [lia | reflexivity | intros; reflexivity | vm_compute; reflexivity].
Defined.

(** ** A pool that cannot be created *)

Section NoPool.
Context `{Scalar F}.
Variable compute_overlap : list F → list F → list F → list F → F.
Variable convert_world_coordinates : wcs F → wcs F → F → F → F * F.
Variable _reproject_slice_cython : Z → Z → common_par F → result (grid F * grid F).
Variable world : env.

(** When [Pool(...)] itself fails with an [Exception], the variable
    [pool] is still [None] in the [finally] clause: no method of a pool is
    called, the two warnings are logged and the serial implementation
    runs. *)
Theorem pool_creation_failure_runs_serially array wcs_in wcs_out shape_out parallel
    nproc n e s :
  check_parallel_flag parallel = Ok nproc →
  naxis wcs_in = 2 →
  wants_pool nproc = true →
  resolved_count world nproc = Ok n →
  1 ≤ n →
  pool_fault world = Some e →
  is_Exception e = true →
  reproject_celestial compute_overlap convert_world_coordinates _reproject_slice_cython
    world array wcs_in wcs_out shape_out parallel "c" s
  = serial_impl _reproject_slice_cython (Z.of_nat (shape_of array).2)
      (make_common_func_par convert_world_coordinates array wcs_in wcs_out shape_out)
      (State (trace (after_mapping s) ++ [EvWarnParallelFailed e; EvWarnRunningSerial])
         false).
Proof.
  intros Hflag Hax Hwants Hres Hn Hpool Hexc.
  rewrite (reproject_parallel _ _ _ _ _ _ _ _ _ nproc) by done.
  assert (is_KeyboardInterrupt e = false) as Hki.
  { unfold is_Exception in Hexc. unfold is_KeyboardInterrupt. by destruct (exn_cls e). }
  rewrite (fallback_after_failure _ _ _ _ _ _ (State (trace (after_mapping s)) false) e);
    [done| |done].
  rewrite (parallel_impl_resolved _ _ _ _ _ n) by done.
  rewrite parallel_impl_unfold. cbv zeta.
  unfold parallel_body. unfold mbind at 1. unfold M_bind.
  unfold create_pool. unfold mbind at 1. unfold M_bind.
  rewrite decide_False by lia. rewrite call_run, Hpool. by rewrite Hki.
Qed.

End NoPool.

Lemma pool_creation_failure_runs_serially_witness :
  check_parallel_flag (PyInt 3) = Ok (Some 3)
  ∧ naxis Demo.plain = 2
  ∧ wants_pool (Some 3) = true
  ∧ resolved_count Demo.no_pool (Some 3) = Ok 3
  ∧ 1 ≤ 3
  ∧ pool_fault Demo.no_pool = Some (Exn OSError "Cannot allocate memory")
  ∧ is_Exception (Exn OSError "Cannot allocate memory") = true
  ∧ reproject_celestial Demo.unit_overlap Demo.same_frame Demo.kernel Demo.no_pool
      Demo.image Demo.plain Demo.plain (2%nat, 2%nat) (PyInt 3) "c" Demo.start
    = serial_impl Demo.kernel (Z.of_nat (shape_of Demo.image).2)
        (make_common_func_par Demo.same_frame Demo.image Demo.plain Demo.plain
           (2%nat, 2%nat))
        (State (trace (after_mapping Demo.start)
                  ++ [EvWarnParallelFailed (Exn OSError "Cannot allocate memory");
                      EvWarnRunningSerial])
           false).
Proof.
  split; [reflexivity|]. split; [reflexivity|]. split; [reflexivity|].
  split; [reflexivity|]. split; [lia|]. split; [reflexivity|]. split; [reflexivity|].
  apply (pool_creation_failure_runs_serially Demo.unit_overlap Demo.same_frame
           Demo.kernel Demo.no_pool Demo.image Demo.plain Demo.plain (2%nat, 2%nat)
           (PyInt 3) (Some 3) 3 (Exn OSError "Cannot allocate memory") Demo.start);
    first [lia | reflexivity].
Defined.

(** ** Positions that are not numbers *)

Section Loops64.
Variable compute_overlap :
  list spec_float → list spec_float → list spec_float → list spec_float → spec_float.
Variable par : common_par spec_float.

Lemma ltb_nan_r x : B64.ltb x S754_nan = false.
Proof. by destruct x. Qed.

(** [min] keeps a NaN that comes first: no later argument compares
    smaller. *)
Lemma py_min4_nan_first b c d : py_min4 (F := spec_float) S754_nan b c d = S754_nan.
Proof.
  unfold py_min4, py_min. cbn [fltb binary64]. by rewrite !ltb_nan_r.
Qed.

Lemma to_int_error x e : B64.to_int x = Raise e → index_error e.
Proof. destruct x as [s|s| |s m ex]; intros [= <-]; [by right|by left]. Qed.

Lemma rbind_Raise {A B} (m : result A) (f : A → result B) e :
  m ≫= f = Raise e → m = Raise e ∨ ∃ a, m = Ok a ∧ f a = Raise e.
Proof. destruct m as [a|e']; simpl; [right; eauto|intros [= <-]; by left]. Qed.

Lemma index_box_error j i e : index_box py_int par j i = Raise e → index_error e.
Proof.
  unfold index_box. cbn [py_int binary64]. intros Hbox.
  do 4 (apply rbind_Raise in Hbox as [Hbox|(? & _ & Hbox)]; [by eapply to_int_error|]).
  done.
Qed.

Lemma index_box_nan_corner j i :
  at2 (xp_inout par) j i = S754_nan →
  index_box py_int par j i = Raise (Exn ValueError "cannot convert float NaN to integer").
Proof.
  intros Hnan. unfold index_box, corner_min. by rewrite Hnan, py_min4_nan_first.
Qed.

Lemma pixel_updates_Raise j i e :
  pixel_updates py_int par j i = Raise e ↔ index_box py_int par j i = Raise e.
Proof.
  unfold pixel_updates. destruct (index_box py_int par j i) as [box|e']; simpl.
  - split; intros [=].
  - split; intros [= ->]; done.
Qed.

(** The updates cannot be listed when the box of one pixel of the range
    cannot be computed: the first such pixel in loop order ends the loops. *)
Lemma rows_updates_raise rows i j e0 :
  j ∈ rows → index_box py_int par j i = Raise e0 →
  ∃ e, rows_updates py_int par rows i = Raise e ∧ index_error e.
Proof.
  intros Hj Hbox. induction rows as [|j' rows IH]; [by apply elem_of_nil in Hj|].
  cbn [rows_updates].
  destruct (pixel_updates py_int par j' i) as [us|e] eqn:Hpix.
  - apply elem_of_cons in Hj as [->|Hj].
    + apply pixel_updates_Raise in Hbox. congruence.
    + destruct (IH Hj) as (e & Hr & He). rewrite Hr. by exists e.
  - exists e. split; [done|]. apply pixel_updates_Raise in Hpix.
    by eapply index_box_error.
Qed.

Lemma rows_updates_error rows i e :
  rows_updates py_int par rows i = Raise e → index_error e.
Proof.
  induction rows as [|j rows IH]; [done|]. cbn [rows_updates].
  destruct (pixel_updates py_int par j i) as [us|e'] eqn:Hpix.
  - destruct (rows_updates py_int par rows i) as [rest|e'']; [done|].
    intros [= <-]. by apply IH.
  - intros [= <-]. apply pixel_updates_Raise in Hpix. by eapply index_box_error.
Qed.

Lemma columns_updates_raise cols i j e0 :
  i ∈ cols → j ∈ py_range (starty par) (endy par) →
  index_box py_int par j i = Raise e0 →
  ∃ e, columns_updates py_int par cols = Raise e ∧ index_error e.
Proof.
  intros Hi Hj Hbox. induction cols as [|i' cols IH]; [by apply elem_of_nil in Hi|].
  cbn [columns_updates].
  destruct (rows_updates py_int par _ i') as [us|e] eqn:Hrows.
  - apply elem_of_cons in Hi as [->|Hi].
    + destruct (rows_updates_raise _ _ _ _ Hj Hbox) as (e & He & _). congruence.
    + destruct (IH Hi) as (e & Hr & He). rewrite Hr. by exists e.
  - exists e. split; [done|]. by eapply rows_updates_error.
Qed.

End Loops64.

Section NanCorner.
Variable compute_overlap :
  list spec_float → list spec_float → list spec_float → list spec_float → spec_float.
Variable convert_world_coordinates :
  wcs spec_float → wcs spec_float → spec_float → spec_float → spec_float * spec_float.
Variable _reproject_slice_cython :
  Z → Z → common_par spec_float → result (grid spec_float * grid spec_float).
Variable world : env.

(** When the first corner of some input pixel lands on a position that
    is NaN in the output image, the legacy call raises what [int] raises
    on the first pixel whose box cannot be computed, a [ValueError] or an
    [OverflowError]; nothing catches it and no result is returned. *)
Theorem nan_corner_stops_legacy array wcs_in wcs_out shape_out parallel nproc s (j i : nat) :
  check_parallel_flag parallel = Ok nproc →
  naxis wcs_in = 2 →
  (j < (shape_of array).1)%nat →
  (i < (shape_of array).2)%nat →
  at2 (xp_inout (make_common_func_par convert_world_coordinates array wcs_in wcs_out
                   shape_out)) (Z.of_nat j) (Z.of_nat i) = S754_nan →
  ∃ e, reproject_celestial compute_overlap convert_world_coordinates
         _reproject_slice_cython world array wcs_in wcs_out shape_out parallel "legacy" s
       = (State (trace (after_mapping s) ++ [EvLegacyLoops]) (pool s), Raise e)
       ∧ index_error e.
Proof.
  intros Hflag Hax Hj Hi Hnan.
  rewrite (reproject_legacy _ _ _ _ _ _ _ _ _ nproc) by done.
  set (par := make_common_func_par convert_world_coordinates array wcs_in wcs_out shape_out)
    in *.
  destruct (columns_updates_raise par (py_range 0 (Z.of_nat (shape_of array).2))
              (Z.of_nat i) (Z.of_nat j)
              (Exn ValueError "cannot convert float NaN to integer"))
    as (e & He & Hcls).
  - unfold py_range. apply elem_of_seqZ. lia.
  - unfold py_range. apply elem_of_seqZ. unfold par.
    cbn [starty endy make_common_func_par]. lia.
  - by apply index_box_nan_corner.
  - exists e. split; [|done]. unfold legacy_loops, resample_slice.
    rewrite resample_columns_updates. unfold slice_updates. by rewrite He.
Qed.

End NanCorner.

(** An output projection that maps nothing. *)
Lemma nan_corner_stops_legacy_witness :
  check_parallel_flag (PyBool false) = Ok (Some 1)
  ∧ naxis Demo.plain = 2
  ∧ (1 < (shape_of Demo.image).1)%nat
  ∧ (0 < (shape_of Demo.image).2)%nat
  ∧ at2 (xp_inout (make_common_func_par Demo.same_frame Demo.image Demo.plain Demo.nowhere
                     (2%nat, 2%nat))) (Z.of_nat 1) (Z.of_nat 0) = S754_nan
  ∧ ∃ e, reproject_celestial Demo.unit_overlap Demo.same_frame Demo.kernel Demo.quiet
           Demo.image Demo.plain Demo.nowhere (2%nat, 2%nat) (PyBool false) "legacy"
           Demo.start
         = (State (trace (after_mapping Demo.start) ++ [EvLegacyLoops]) (pool Demo.start),
            Raise e)
         ∧ index_error e.
Proof.
  split; [reflexivity|]. split; [reflexivity|]. split; [simpl; lia|]. split; [simpl; lia|].
  split; [vm_compute; reflexivity|].
  apply (nan_corner_stops_legacy Demo.unit_overlap Demo.same_frame Demo.kernel Demo.quiet
           Demo.image Demo.plain Demo.nowhere (2%nat, 2%nat) (PyBool false) (Some 1)
           Demo.start 1 0);
    first [reflexivity | simpl; lia | vm_compute; reflexivity].
Defined.
